(** * IControls.h: the widget classes of IGraphics

    A model of [IPlug/IGraphics/IControls.h].  The header declares the
    widget classes and gives bodies to a handful of their methods; the
    rest (mouse handlers, most [Draw] methods) is defined in a translation
    unit that is not part of the fragment, and the base classes live in
    [IControl.h].

    Conventions.
    - [int] is [Z]; no method of the header does integer arithmetic that
      could wrap.
    - a [double] is an IEEE 754 binary64 number ([Double.t]), with its
      zeros, infinities and NaN; division rounds the exact quotient to
      the nearest double, ties to even.  Where only the quotient before
      rounding matters, it is a [Q], and a quotient by zero has no value
      ([None]).
    - a [const char*] is the [string] of bytes it points to; the C string
      it denotes ends at the first NUL (or at the end of the [string]).
    - a method is a function from the object's state to a result, the new
      state and the calls it made on collaborators. *)

From Stdlib Require Import ZArith QArith List String Ascii Bool Lia.
From Stdlib Require Import Qround Qabs Qpower Lqa SpecFloat.
Import ListNotations.
Local Open Scope Z_scope.

(** ** C strings *)

Definition is_nul (c : ascii) : bool := Ascii.eqb c zero.

(** Value of a byte as [unsigned char]. *)
Definition uchar (c : ascii) : Z := Z.of_N (N_of_ascii c).

(** The C string a pointer denotes: the bytes before the terminator. *)
Fixpoint c_str (p : string) : string :=
  match p with
  | EmptyString => EmptyString
  | String c p' => if is_nul c then EmptyString else String c (c_str p')
  end.

Fixpoint nul_free (s : string) : bool :=
  match s with
  | EmptyString => true
  | String c s' => negb (is_nul c) && nul_free s'
  end.

(** [strcmp]: bytes are compared as [unsigned char] up to and including
    the terminator; the result is zero when the two C strings are equal
    and the difference of the first differing bytes otherwise. *)
Fixpoint strcmp (a b : string) : Z :=
  match a, b with
  | EmptyString, EmptyString => 0
  | EmptyString, String d _ => 0 - uchar d
  | String c _, EmptyString => uchar c - 0
  | String c a', String d b' =>
      if Ascii.eqb c d
      then (if is_nul c then 0 else strcmp a' b')
      else uchar c - uchar d
  end.

(** A C condition [if (e)] on an [int]. *)
Definition truthy (e : Z) : bool := negb (e =? 0).

(** ** Types of the toolkit that the header uses but does not declare

    The header includes IControl.h, which brings in the types below.
    None of them is part of the fragment ("the broader plugin framework
    ... is out of scope for this fragment and not shown"), so each is
    given with the members the header relies on and nothing more. *)

(** Modelled from the spec: [WDL_String] (WDL/wdlstring.h is missing), a
    heap buffer holding a C string.  [Get] returns the buffer, [Set]
    (here [Set_]) replaces its contents by a copy of the C string at
    [str]. *)
Module WDL_String.
Record t := mk { buffer : string }.
Definition Get (s : t) : string := buffer s.
Definition Set_ (str : string) (_ : t) : t := mk (c_str str).
Definition empty : t := mk EmptyString.
End WDL_String.

(** Modelled from the spec: [IRECT] (IPlugStructs.h is missing), the
    rectangle of "hit-testing rectangles": left, top, right, bottom. *)
Record IRECT := mkIRECT { L : Z; T : Z; R : Z; B : Z }.

(** Modelled from the spec: [IBitmap] (IPlugStructs.h is missing), the
    bitmap of "cycling bitmap frames": width, height and the number [N]
    of frames (states) stacked in the image. *)
Record IBitmap := mkIBitmap { W : Z; H : Z; N : Z }.

(** Modelled from the spec: [IText] (IPlugStructs.h is missing).  The
    header only passes it on, so it is a handle. *)
Inductive IText := IText_handle (id : Z).

(** Modelled from the spec: [IChannelBlend] (IPlugStructs.h is missing),
    a handle like [IText]. *)
Inductive IChannelBlend := IChannelBlend_handle (id : Z).

(** Modelled from the spec: [IMouseMod] (IPlugStructs.h is missing), the
    buttons and modifier keys held during a mouse event. *)
Record IMouseMod := mkIMouseMod { mod_L : bool; mod_R : bool; mod_S : bool; mod_C : bool; mod_A : bool }.

(** Modelled from the spec: [EDirection] (IPlugStructs.h is missing); the
    header names [kVertical] as the default direction of faders and
    knobs. *)
Inductive EDirection := kVertical | kHorizontal.

(** Modelled from the spec: the base class [IControl] (IControl.h is
    missing), the "common base control abstraction", with the members
    the widgets of the header rely on: the rectangles drawn in and
    clicked on, the value, the dirty flag, and the text, blend and prompt
    settings. *)
Record IControl := mkIControl {
  mRECT : IRECT;
  mTargetRECT : IRECT;
  mValue : Q;
  mDirty : bool;
  mText : IText;
  mBlend : IChannelBlend;
  mDisablePrompt : bool
}.

Definition set_mValue (v : Q) (c : IControl) : IControl :=
  mkIControl (mRECT c) (mTargetRECT c) v (mDirty c) (mText c) (mBlend c) (mDisablePrompt c).

Definition set_mDirty (d : bool) (c : IControl) : IControl :=
  mkIControl (mRECT c) (mTargetRECT c) (mValue c) d (mText c) (mBlend c) (mDisablePrompt c).

(** Methods of the toolkit whose bodies are outside the header are
    parameters of the model: [IControl::SetDirty] (IControl.h) acts on the
    base-class state in a way the header does not show. *)
Class Toolkit := {
  SetDirty_body : bool -> IControl -> IControl
}.

(** Calls a method makes on its collaborators: [SetDirty] on the base
    class, drawing calls on the [IGraphics&] it is handed. *)
Inductive Call :=
| Call_SetDirty (pushParamToPlug : bool)
| Call_DrawBitmapedText (bitmap : IBitmap) (rect : IRECT) (text : IText)
    (blend : IChannelBlend) (str : string) (vCentre multiline : bool)
    (charWidth charHeight charOffset : Z).

(** Drawing calls that put pixels of a bitmap on the screen. *)
Definition is_bitmap_draw (c : Call) : bool :=
  match c with
  | Call_DrawBitmapedText _ _ _ _ _ _ _ _ _ _ => true
  | Call_SetDirty _ => false
  end.

(** ** Methods as state transformers with a call trace *)

Definition Method (St A : Type) : Type := St -> A * St * list Call.

Definition ret {St A} (a : A) : Method St A := fun s => (a, s, []).

Definition bind {St A B} (m : Method St A) (k : A -> Method St B) : Method St B :=
  fun s =>
    let '(a, s1, t1) := m s in
    let '(b, s2, t2) := k a s1 in
    (b, s2, t1 ++ t2).

Definition get {St} : Method St St := fun s => (s, s, []).
Definition modify {St} (f : St -> St) : Method St unit := fun s => (tt, f s, []).
Definition call {St} (c : Call) : Method St unit := fun s => (tt, s, [c]).

Notation "x <- m ;; k" := (bind m (fun x => k))
  (at level 61, m at next level, right associativity).
Notation "m ;; k" := (bind m (fun _ => k))
  (at level 61, right associativity).

Definition state_after {St A} (r : A * St * list Call) : St := snd (fst r).
Definition calls_of {St A} (r : A * St * list Call) : list Call := snd r.

(** ** IBitmapTextControl *)

Module IBitmapTextControl.

Record t := mk {
  base : IControl;
  mStr : WDL_String.t;
  mCharWidth : Z;
  mCharHeight : Z;
  mCharOffset : Z;
  mTextBitmap : IBitmap;
  mMultiLine : bool;
  mVCentre : bool
}.

Definition with_base (f : IControl -> IControl) (c : t) : t :=
  mk (f (base c)) (mStr c) (mCharWidth c) (mCharHeight c)
     (mCharOffset c) (mTextBitmap c) (mMultiLine c) (mVCentre c).

Definition with_mStr (f : WDL_String.t -> WDL_String.t) (c : t) : t :=
  mk (base c) (f (mStr c)) (mCharWidth c) (mCharHeight c)
     (mCharOffset c) (mTextBitmap c) (mMultiLine c) (mVCentre c).

(** [SetDirty(pushParamToPlug)], inherited from [IControl]. *)
Definition SetDirty `{Toolkit} (pushParamToPlug : bool) : Method t unit :=
  call (Call_SetDirty pushParamToPlug) ;;
  modify (with_base (SetDirty_body pushParamToPlug)).

(** The text the control holds: the C string in [mStr]. *)
Definition stored_text (c : t) : string := c_str (WDL_String.Get (mStr c)).

(**
<<
void SetTextFromPlug(const char* str)
{
  if (strcmp(mStr.Get(), str))
  {
  SetDirty(false);
  mStr.Set(str);
  }
}
>>
*)
Definition SetTextFromPlug `{Toolkit} (str : string) : Method t unit :=
  c <- get ;;
  if truthy (strcmp (WDL_String.Get (mStr c)) str)
  then
    SetDirty false ;;
    modify (with_mStr (WDL_String.Set_ str))
  else ret tt.

(** [ClearTextFromPlug()] has one statement: [SetTextFromPlug] applied
  to the empty string literal. *)
Definition ClearTextFromPlug `{Toolkit} : Method t unit :=
  SetTextFromPlug EmptyString.

(** The transition of [ClearTextFromPlug] written out on its own,
  without reference to [SetTextFromPlug]: nothing happens when the
  text is already empty; otherwise [SetDirty(false)] is called and the
  text is emptied. *)
Definition ClearTextFromPlug_spec `{Toolkit} : Method t unit :=
  fun c =>
    match stored_text c with
    | EmptyString => (tt, c, [])
    | String _ _ =>
        (tt,
         with_mStr (fun _ => WDL_String.empty) (with_base (SetDirty_body false) c),
         [Call_SetDirty false])
    end.

(** Modelled from the spec: the macro [CSTR_NOT_EMPTY(cStr)] (its
  definition, in the toolkit's utility header, is missing): the pointer
  is not null and its first byte is not the terminator.  The pointers
  of this model are never null. *)
Definition CSTR_NOT_EMPTY (cStr : string) : bool :=
  match cStr with
  | EmptyString => false
  | String c _ => negb (is_nul c)
  end.

(**
<<
void Draw(IGraphics& graphics)
{
  if (CSTR_NOT_EMPTY(mStr.Get()))
  {
  graphics.DrawBitmapedText(mTextBitmap, mRECT, mText, &mBlend, mStr.Get(),
                            mVCentre, mMultiLine, mCharWidth, mCharHeight, mCharOffset);
  }
}
>>
*)
Definition Draw : Method t unit :=
  c <- get ;;
  if CSTR_NOT_EMPTY (WDL_String.Get (mStr c))
  then call (Call_DrawBitmapedText (mTextBitmap c) (mRECT (base c))
               (mText (base c)) (mBlend (base c))
               (c_str (WDL_String.Get (mStr c)))
               (mVCentre c) (mMultiLine c)
               (mCharWidth c) (mCharHeight c) (mCharOffset c))
  else ret tt.

End IBitmapTextControl.

(** ** IURLControl *)

Module IURLControl.

Record t := mk {
  base : IControl;
  mURL : WDL_String.t;
  mBackupURL : WDL_String.t;
  mErrMsg : WDL_String.t
}.

(** [void Draw(IGraphics& graphics) override {}] *)
Definition Draw : Method t unit := ret tt.

End IURLControl.

(** ** IFaderControl *)

(** [(double) a / (double) b] before rounding: the exact quotient of the
    two converted integers, which exists when [b] is not zero.  The double
    the division returns is [Double.div]. *)
Definition double_of_int (i : Z) : Q := inject_Z i.

Definition ddiv (a b : Q) : option Q :=
  if Qeq_bool b 0 then None else Some (a / b)%Q.

Module IFaderControl.

Record t := mk {
  base : IControl;
  mLen : Z;
  mHandleHeadroom : Z;
  mBitmap : IBitmap;
  mDirection : EDirection;
  mOnlyHandle : bool
}.

(** [int GetLength() const { return mLen; }] *)
Definition GetLength (f : t) : Z := mLen f.

(** [int GetHandleHeadroom() const { return mHandleHeadroom; }] *)
Definition GetHandleHeadroom (f : t) : Z := mHandleHeadroom f.

(** [double GetHandleValueHeadroom() const
   { return (double) mHandleHeadroom / (double) mLen; }]: the quotient
   before it is rounded to a [double].  The double returned is
   [IFaderControl_double.GetHandleValueHeadroom]. *)
Definition GetHandleValueHeadroom (f : t) : option Q :=
  ddiv (double_of_int (mHandleHeadroom f)) (double_of_int (mLen f)).

(** [GetHandleRECT] is declared in the header and defined elsewhere. *)
Class Bodies := { GetHandleRECT_body : t -> Q -> IRECT }.

(** [IRECT GetHandleRECT(double value = -1.0) const] *)
Definition GetHandleRECT `{Bodies} (f : t) : IRECT := GetHandleRECT_body f (-1 # 1).

End IFaderControl.

(** ** IKnobControl *)

Module IKnobControl.

Record t := mk {
  base : IControl;
  mDirection : EDirection;
  mGearing : Q
}.

Definition with_base (f : IControl -> IControl) (k : t) : t :=
  mk (f (base k)) (mDirection k) (mGearing k).

(** [void SetGearing(double gearing) { mGearing = gearing; }] *)
Definition SetGearing (gearing : Q) (k : t) : t :=
  mk (base k) (mDirection k) gearing.

End IKnobControl.

(** ** The class hierarchy *)

Module Hierarchy.

Inductive Class :=
  | IControl | IBitmapControl | ITextControl
  | ISwitchControl | ISwitchPopUpControl | ISwitchFramesControl
  | IInvisibleSwitchControl | IRadioButtonsControl | IContactControl
  | IFaderControl
  | IKnobControl | IKnobLineControl | IKnobRotaterControl
  | IKnobMultiControl | IKnobRotatingMaskControl
  | IBitmapOverlayControl | ICaptionControl | IURLControl
  | IFileSelectorControl | IBitmapTextControl.

(** The classes the header defines, in the order of the file. *)
Definition defined_in_header : list Class :=
  [ ISwitchControl; ISwitchPopUpControl; ISwitchFramesControl;
    IInvisibleSwitchControl; IRadioButtonsControl; IContactControl;
    IFaderControl; IKnobControl; IKnobLineControl; IKnobRotaterControl;
    IKnobMultiControl; IKnobRotatingMaskControl; IBitmapOverlayControl;
    ICaptionControl; IURLControl; IFileSelectorControl; IBitmapTextControl ].

(** The base-class clause of each class definition of the header. *)
Definition base_in_header (c : Class) : option Class :=
  match c with
  | ISwitchControl => Some IBitmapControl
  | ISwitchPopUpControl => Some ISwitchControl
  | ISwitchFramesControl => Some ISwitchControl
  | IInvisibleSwitchControl => Some IControl
  | IRadioButtonsControl => Some IControl
  | IContactControl => Some ISwitchControl
  | IFaderControl => Some IControl
  | IKnobControl => Some IControl
  | IKnobLineControl => Some IKnobControl
  | IKnobRotaterControl => Some IKnobControl
  | IKnobMultiControl => Some IKnobControl
  | IKnobRotatingMaskControl => Some IKnobControl
  | IBitmapOverlayControl => Some ISwitchControl
  | ICaptionControl => Some ITextControl
  | IURLControl => Some IControl
  | IFileSelectorControl => Some IControl
  | IBitmapTextControl => Some IControl
  | IControl | IBitmapControl | ITextControl => None
  end.

(** Modelled from the spec: the base-class clauses of [IBitmapControl]
  and [ITextControl], which IControl.h declares.  The widgets are "all
  composed from a common base control abstraction": both derive from
  [IControl], which has no base. *)
Definition base_in_IControl_h (c : Class) : option Class :=
  match c with
  | IBitmapControl => Some IControl
  | ITextControl => Some IControl
  | _ => None
  end.

Definition base_of (c : Class) : option Class :=
  match base_in_header c with
  | Some b => Some b
  | None => base_in_IControl_h c
  end.

(** [derives c a]: [a] is a direct or transitive base of [c]. *)
Inductive derives : Class -> Class -> Prop :=
  | derives_direct c a : base_of c = Some a -> derives c a
  | derives_trans c b a : base_of c = Some b -> derives b a -> derives c a.

(** The chain of bases of a class, nearest first. *)
Fixpoint bases (fuel : nat) (c : Class) : list Class :=
  match fuel with
  | O => []
  | S fuel' =>
      match base_of c with
      | Some b => b :: bases fuel' b
      | None => []
      end
  end.

(** The kinds of widget the library is said to provide. *)
Inductive Kind :=
  | Knob | Slider | Switch | RadioButtons | Caption | URLLink | BitmapText.

Definition all_kinds : list Kind :=
  [Knob; Slider; Switch; RadioButtons; Caption; URLLink; BitmapText].

(** The kind of each class, after the comment that introduces it in the
  header.  The file selector is of none of the listed kinds. *)
Definition kind_of (c : Class) : option Kind :=
  match c with
  | ISwitchControl | ISwitchPopUpControl | ISwitchFramesControl
  | IInvisibleSwitchControl | IContactControl | IBitmapOverlayControl => Some Switch
  | IRadioButtonsControl => Some RadioButtons
  | IFaderControl => Some Slider
  | IKnobControl | IKnobLineControl | IKnobRotaterControl
  | IKnobMultiControl | IKnobRotatingMaskControl => Some Knob
  | ICaptionControl => Some Caption
  | IURLControl => Some URLLink
  | IBitmapTextControl => Some BitmapText
  | IFileSelectorControl | IControl | IBitmapControl | ITextControl => None
  end.

Definition Kind_eqb (a b : Kind) : bool :=
  match a, b with
  | Knob, Knob | Slider, Slider | Switch, Switch | RadioButtons, RadioButtons
  | Caption, Caption | URLLink, URLLink | BitmapText, BitmapText => true
  | _, _ => false
  end.

(** The classes of the header that are of kind [k]. *)
Definition classes_of_kind (k : Kind) : list Class :=
  filter (fun c => match kind_of c with Some k' => Kind_eqb k k' | None => false end)
         defined_in_header.

End Hierarchy.

(** ** Methods declared in the header and defined elsewhere *)

(** Modelled from the spec: [IRECT::Contains] (IPlugStructs.h is not part
    of the fragment), the test behind "hit-testing rectangles": a pixel is
    in a rectangle when it is at or after the left and top edges and
    before the right and bottom ones. *)
Definition Contains (r : IRECT) (x y : Z) : bool :=
  (L r <=? x) && (x <? R r) && (T r <=? y) && (y <? B r).

(** The point [(x, y)] lies inside [r]. *)
Definition inside (r : IRECT) (x y : Z) : Prop :=
  L r <= x < R r /\ T r <= y < B r.

(** Modelled from the spec: [IControl::IsHit] (IControl.h), the hit test
    every widget of the header inherits except the fader: "hit-testing
    rectangles", against the control's target rectangle. *)
Definition IControl_IsHit (c : IControl) (x y : Z) : bool :=
  Contains (mTargetRECT c) x y.

Module IFaderControl_cpp.
Import IFaderControl.

(** The rectangle a fader tests a click against: its handle when only the
    handle is clickable, its whole track otherwise. *)
Definition hit_rect `{Bodies} (f : t) : IRECT :=
  if mOnlyHandle f then GetHandleRECT f else mTargetRECT (base f).

(** Modelled from the spec: [IFaderControl::IsHit], declared at line 107
    of the header; its body is not in the fragment.  "hit-testing
    rectangles": containment in the handle rectangle or in the track. *)
Definition IsHit `{Bodies} (f : t) (x y : Z) : bool :=
  if mOnlyHandle f
  then Contains (GetHandleRECT f) x y
  else Contains (mTargetRECT (base f)) x y.

End IFaderControl_cpp.

Module ISwitchControl.

(** [ISwitchControl : IBitmapControl]; the bitmap is a member of
    [IBitmapControl]. *)
Record t := mk { base : IControl; mBitmap : IBitmap }.

Definition with_base (f : IControl -> IControl) (s : t) : t :=
  mk (f (base s)) (mBitmap s).

(** How the [N] states of the bitmap are laid out in the range of the
    control's value is decided outside the header: [state_value b k] is
    the value at which state [k] of [b] shows, [value_state b v] the state
    that shows at value [v]; a state shows at its own value, and at
    every value a bitmap with at least one state shows one of them. *)
Class States := {
  state_value : IBitmap -> Z -> Q;
  value_state : IBitmap -> Q -> Z;
  shows_at_own_value :
    forall (b : IBitmap) (j : Z), 0 <= j < N b -> value_state b (state_value b j) = j;
  shows_a_state :
    forall (b : IBitmap) (v : Q), 1 <= N b -> 0 <= value_state b v < N b
}.

(** The state after [k] of a bitmap with [n] states. *)
Definition next_state (n k : Z) : Z := if k + 1 <? n then k + 1 else 0.

(** Modelled from the spec: [ISwitchControl::OnMouseDown], declared at
    line 24 of the header ("Click to cycle through the bitmap states");
    its body is not in the fragment.  "cycling bitmap frames": the value
    moves to the state after the one it shows, the first following the
    last. *)
Definition OnMouseDown `{States} (x y : Z) (mod_ : IMouseMod) (s : t) : t :=
  let b := mBitmap s in
  with_base (set_mValue (state_value b (next_state (N b) (value_state b (mValue (base s)))))) s.

(** [n] clicks in a row. *)
Definition clicks `{States} (n : nat) (x y : Z) (mod_ : IMouseMod) (s : t) : t :=
  Nat.iter n (OnMouseDown x y mod_) s.

End ISwitchControl.

Module IKnobControl_cpp.
Import IKnobControl.

(** What a drag of [delta] pixels adds to the value at gearing [gearing]
    is computed outside the header. *)
Class Bodies := { scaled : Z -> Q -> Q }.

(** The component of the drag along the knob's axis. *)
Definition along (d : EDirection) (dX dY : Z) : Z :=
  match d with
  | kVertical => dY
  | kHorizontal => dX
  end.

(** Modelled from the spec: [IKnobControl::OnMouseDrag], declared at line
    128 of the header; its body is not in the fragment.  "mapping drag
    deltas to values": the delta along [mDirection], scaled by [mGearing],
    is added to the value. *)
Definition OnMouseDrag `{Bodies} (x y dX dY : Z) (mod_ : IMouseMod) (k : t) : t :=
  match mDirection k with
  | kVertical =>
      with_base (fun c => set_mValue (mValue c + scaled dY (mGearing k))%Q c) k
  | kHorizontal =>
      with_base (fun c => set_mValue (mValue c + scaled dX (mGearing k))%Q c) k
  end.

End IKnobControl_cpp.

(** ** IEEE 754 binary64 *)

Module Double.

(** A double: signed zero, signed infinity, NaN, or a finite number
    [(-1)^s * m * 2^e]. *)
Definition t : Type := spec_float.

(** [(num / den) / 2^e] as a fraction of integers. *)
Definition scaled (num den e : Z) : Z * Z :=
  if 0 <=? e then (num, den * 2 ^ e) else (num * 2 ^ (- e), den).

(** The [k] with [2^k <= num / den < 2^(k+1)], for positive [num], [den]. *)
Definition floor_log2 (num den : Z) : Z :=
  let k0 := Z.log2 num - Z.log2 den in
  let '(n, d) := scaled num den k0 in
  if d <=? n then k0 else k0 - 1.

(** The integer nearest to [n / d], the even one of two equally near. *)
Definition nearest_even (n d : Z) : Z :=
  let m := n / d in
  match 2 * (n mod d) ?= d with
  | Lt => m
  | Eq => if Z.even m then m else m + 1
  | Gt => m + 1
  end.

(** The double nearest to [(-1)^neg * num / den], for positive [num] and
    [den]: a mantissa of 53 bits (fewer below [2^-1022]) at the exponent
    that fits the quotient, infinity from [2^1024] on. *)
Definition round (neg : bool) (num den : Z) : t :=
  let e := Z.max (floor_log2 num den - 52) (-1074) in
  let '(n, d) := scaled num den e in
  let m := nearest_even n d in
  let '(m, e) := if m =? 2 ^ 53 then (2 ^ 52, e + 1) else (m, e) in
  match m with
  | Zpos p => if e <=? 971 then S754_finite neg p e else S754_infinity neg
  | _ => S754_zero neg
  end.

(** [(double) z] for an integer [z]. *)
Definition of_int (z : Z) : t :=
  match z with
  | Z0 => S754_zero false
  | Zpos p => round false (Zpos p) 1
  | Zneg p => round true (Zpos p) 1
  end.

(** [x / y]: NaN for a NaN operand, for zero by zero and for infinity by
    infinity; an infinity for a non-zero number by zero and for infinity
    by a number; a zero for zero or a number by infinity and for zero by a
    number; the rounded quotient of two finite non-zero numbers.  The
    sign is the product of the signs. *)
Definition div (x y : t) : t :=
  match x, y with
  | S754_nan, _ => S754_nan
  | _, S754_nan => S754_nan
  | S754_zero _, S754_zero _ => S754_nan
  | S754_infinity _, S754_infinity _ => S754_nan
  | S754_finite sx _ _, S754_zero sy => S754_infinity (xorb sx sy)
  | S754_infinity sx, S754_zero sy => S754_infinity (xorb sx sy)
  | S754_infinity sx, S754_finite sy _ _ => S754_infinity (xorb sx sy)
  | S754_zero sx, S754_infinity sy => S754_zero (xorb sx sy)
  | S754_finite sx _ _, S754_infinity sy => S754_zero (xorb sx sy)
  | S754_zero sx, S754_finite sy _ _ => S754_zero (xorb sx sy)
  | S754_finite sx mx ex, S754_finite sy my ey =>
      let '(n, d) := scaled (Zpos mx) (Zpos my) (ey - ex) in
      round (xorb sx sy) n d
  end.

Definition sgn (s : bool) : Q := if s then (- 1)%Q else 1%Q.

(** The number a finite double stands for (0 for the others). *)
Definition value (x : t) : Q :=
  match x with
  | S754_finite s m e => (sgn s * (inject_Z (Zpos m) * 2 ^ e))%Q
  | _ => 0%Q
  end.

Definition is_finite (x : t) : bool :=
  match x with
  | S754_finite _ _ _ | S754_zero _ => true
  | _ => false
  end.

(** The same division through the Standard Library's specification of
    IEEE 754 arithmetic, for comparison. *)
Definition reference_div_int (a b : Z) : t :=
  SFdiv 53 1024 (binary_normalize 53 1024 a 0 false)
                (binary_normalize 53 1024 b 0 false).

Definition eqb (x y : t) : bool :=
  match x, y with
  | S754_zero a, S754_zero b => Bool.eqb a b
  | S754_infinity a, S754_infinity b => Bool.eqb a b
  | S754_nan, S754_nan => true
  | S754_finite a m e, S754_finite b m' e' => Bool.eqb a b && Pos.eqb m m' && Z.eqb e e'
  | _, _ => false
  end.

End Double.

(** The values of an [int]. *)
Definition is_int (z : Z) : Prop := - 2147483648 <= z <= 2147483647.

Module IFaderControl_double.

(** [double GetHandleValueHeadroom() const
   { return (double) mHandleHeadroom / (double) mLen; }] *)
Definition GetHandleValueHeadroom (f : IFaderControl.t) : Double.t :=
  Double.div (Double.of_int (IFaderControl.mHandleHeadroom f))
             (Double.of_int (IFaderControl.mLen f)).

End IFaderControl_double.

(** ** Constructors with a body in the header *)

(** Modelled from the spec: [IPlugBaseGraphics] (its header is missing),
    the plug a control is attached to.  The header only passes the
    reference on to [IControl], so it is a handle. *)
Inductive IPlugBaseGraphics := plug_handle (id : Z).

(** The constructor of [IControl] (IControl.h) is a parameter of the
    model: [IControl_ctor plug rect paramIdx], with [None] for a parameter
    index left to its default. *)
Class IControl_h := {
  IControl_ctor : IPlugBaseGraphics -> IRECT -> option Z -> IControl
}.

Module Construct.

(**
<<
IKnobControl(IPlugBaseGraphics& plug, IRECT rect, int paramIdx,
             EDirection direction = kVertical, double gearing = DEFAULT_GEARING)
: IControl(plug, rect, paramIdx), mDirection(direction), mGearing(gearing) {}
>>
*)
Definition IKnobControl_ctor `{IControl_h} (plug : IPlugBaseGraphics) (rect : IRECT)
    (paramIdx : Z) (direction : EDirection) (gearing : Q) : IKnobControl.t :=
  IKnobControl.mk (IControl_ctor plug rect (Some paramIdx)) direction gearing.

(**
<<
IBitmapTextControl(IPlugBaseGraphics& plug, IRECT rect, IBitmap& bitmap,
                   const char* str, IText* text, int charWidth, int charHeight,
                   int charOffset, bool multiLine, bool vCenter)
: IControl(plug, rect)
, mTextBitmap(bitmap)
, mCharWidth(charWidth)
, mCharHeight(charHeight)
, mCharOffset(charOffset)
, mMultiLine(multiLine)
, mVCentre(vCenter)
{
  mStr.Set(str);
}
>>
    [mStr] is default-constructed, which leaves it empty, before the body
    runs.  [text] is a pointer that may be null ([None]). *)
Definition IBitmapTextControl_ctor `{IControl_h} (plug : IPlugBaseGraphics)
    (rect : IRECT) (bitmap : IBitmap) (str : string) (text : option IText)
    (charWidth charHeight charOffset : Z) (multiLine vCenter : bool)
    : IBitmapTextControl.t :=
  IBitmapTextControl.with_mStr (WDL_String.Set_ str)
    (IBitmapTextControl.mk (IControl_ctor plug rect None) WDL_String.empty
       charWidth charHeight charOffset bitmap multiLine vCenter).

(** The constructor called with the arguments after [bitmap] left to
    their defaults: the empty string literal, a null [text], 6, 12, 0,
    [false], [true]. *)
Definition IBitmapTextControl_ctor_default `{IControl_h} (plug : IPlugBaseGraphics)
    (rect : IRECT) (bitmap : IBitmap) : IBitmapTextControl.t :=
  IBitmapTextControl_ctor plug rect bitmap EmptyString None 6 12 0 false true.

End Construct.

(** ** The plug setting one text after another *)

(** [SetTextFromPlug(s1); SetTextFromPlug(s2); ...] on one control. *)
Fixpoint SetTexts `{Toolkit} (l : list string) : Method IBitmapTextControl.t unit :=
  match l with
  | [] => ret tt
  | s :: l' => IBitmapTextControl.SetTextFromPlug s ;; SetTexts l'
  end.

(** How many strings of [l] differ, as C strings, from the one before
    them, [cur] being the one before the first. *)
Fixpoint changes (cur : string) (l : list string) : nat :=
  match l with
  | [] => O
  | s :: l' =>
      ((if String.eqb cur (c_str s) then 0 else 1) + changes (c_str s) l')%nat
  end.

(** The [str] argument of a drawing call. *)
Definition drawn_text (c : Call) : option string :=
  match c with
  | Call_DrawBitmapedText _ _ _ _ str _ _ _ _ _ => Some str
  | Call_SetDirty _ => None
  end.

(** ** Member functions and their overrides *)

Module Members.
Import Hierarchy.

(** The member functions the header declares, constructors and
    destructors apart. *)
Inductive Member :=
| OnMouseDown | OnMouseUp | OnMouseDblClick | OnMouseDrag | OnMouseWheel
| Draw | IsHit | OnRescale | IsDirty | SnapToMouse
| GetLength | GetHandleHeadroom | GetHandleValueHeadroom | GetHandleRECT
| SetGearing
| GetLastSelectedFileForPlug | SetLastSelectedFileFromPlug
| SetTextFromPlug | ClearTextFromPlug.

Definition Member_eqb (a b : Member) : bool :=
  match a, b with
  | OnMouseDown, OnMouseDown | OnMouseUp, OnMouseUp
  | OnMouseDblClick, OnMouseDblClick | OnMouseDrag, OnMouseDrag
  | OnMouseWheel, OnMouseWheel | Draw, Draw | IsHit, IsHit
  | OnRescale, OnRescale | IsDirty, IsDirty | SnapToMouse, SnapToMouse
  | GetLength, GetLength | GetHandleHeadroom, GetHandleHeadroom
  | GetHandleValueHeadroom, GetHandleValueHeadroom
  | GetHandleRECT, GetHandleRECT | SetGearing, SetGearing
  | GetLastSelectedFileForPlug, GetLastSelectedFileForPlug
  | SetLastSelectedFileFromPlug, SetLastSelectedFileFromPlug
  | SetTextFromPlug, SetTextFromPlug | ClearTextFromPlug, ClearTextFromPlug => true
  | _, _ => false
  end.

(** The member functions each class definition of the header lists.  The
    three classes of IControl.h list theirs there. *)
Definition declared_in_header (c : Class) : list Member :=
  match c with
  | ISwitchControl => [OnMouseDblClick; OnMouseDown]
  | ISwitchPopUpControl => [OnMouseDown]
  | ISwitchFramesControl => [OnMouseDown]
  | IInvisibleSwitchControl => [OnMouseDown]
  | IRadioButtonsControl => [OnMouseDown; Draw]
  | IContactControl => [OnMouseUp]
  | IFaderControl =>
      [GetLength; GetHandleHeadroom; GetHandleValueHeadroom; GetHandleRECT;
       OnMouseDown; OnMouseDrag; OnMouseWheel; Draw; IsHit; OnRescale;
       SnapToMouse]
  | IKnobControl => [SetGearing; OnMouseDrag; OnMouseWheel]
  | IKnobLineControl => [Draw]
  | IKnobRotaterControl => [Draw]
  | IKnobMultiControl => [Draw; OnRescale]
  | IKnobRotatingMaskControl => [Draw]
  | IBitmapOverlayControl => [Draw]
  | ICaptionControl => [OnMouseDown; OnMouseDblClick; Draw]
  | IURLControl => [OnMouseDown; Draw]
  | IFileSelectorControl =>
      [OnMouseDown; GetLastSelectedFileForPlug; SetLastSelectedFileFromPlug;
       Draw; IsDirty]
  | IBitmapTextControl => [SetTextFromPlug; ClearTextFromPlug; Draw]
  | IControl | IBitmapControl | ITextControl => []
  end.

Definition declares (c : Class) (m : Member) : bool :=
  existsb (Member_eqb m) (declared_in_header c).

(** The class whose declaration of [m] an object of class [c] uses, as far
    as the header decides it: the nearest of [c] and its bases that
    declares [m].  [None] leaves the member to IControl.h. *)
Definition resolve (c : Class) (m : Member) : option Class :=
  find (fun d => declares d m) (c :: bases 3 c).

End Members.

(** ** Sample objects *)

Module Sample.

(** A [SetDirty] that raises the dirty flag. *)
Definition toolkit : Toolkit :=
  {| SetDirty_body := fun _ c => set_mDirty true c |}.

Definition rect : IRECT := mkIRECT 10 20 110 60.

Definition control : IControl :=
  mkIControl rect rect (1 # 2) false (IText_handle 0) (IChannelBlend_handle 0) false.

Definition font : IBitmap := mkIBitmap 570 12 95.

Definition label (s : string) : IBitmapTextControl.t :=
  IBitmapTextControl.mk control (WDL_String.mk s) 6 12 0 font false true.

Definition link : IURLControl.t :=
  IURLControl.mk control (WDL_String.mk "https://example.org") WDL_String.empty WDL_String.empty.

Definition fader (len headroom : Z) : IFaderControl.t :=
  IFaderControl.mk control len headroom (mkIBitmap 20 30 1) kVertical true.

(** A handle of the bitmap's height at the top of the track. *)
Definition fader_bodies : IFaderControl.Bodies :=
  {| IFaderControl.GetHandleRECT_body := fun f _ =>
       let r := mTargetRECT (IFaderControl.base f) in
       mkIRECT (L r) (T r) (R r) (T r + H (IFaderControl.mBitmap f)) |}.

(** State [k] shows at value [k], and so at every value from [k] up to
    [k + 1]; past the last state the states repeat. *)
Definition states : ISwitchControl.States :=
  {| ISwitchControl.state_value := fun _ k => inject_Z k;
     ISwitchControl.value_state := fun b v => Qfloor v mod N b;
     ISwitchControl.shows_at_own_value := fun b j H =>
       eq_trans (f_equal (fun z => z mod N b) (Qfloor_Z j)) (Z.mod_small j (N b) H);
     ISwitchControl.shows_a_state := fun b v H =>
       Z.mod_pos_bound (Qfloor v) (N b) (Z.lt_le_trans 0 1 (N b) Z.lt_0_1 H) |}.

Definition switch (n k : Z) : ISwitchControl.t :=
  ISwitchControl.mk (set_mValue (inject_Z k) control) (mkIBitmap 40 20 n).

(** A switch of [n] states whose value is [v], on a state or between two. *)
Definition switch_at (n : Z) (v : Q) : ISwitchControl.t :=
  ISwitchControl.mk (set_mValue v control) (mkIBitmap 40 20 n).

Definition knob_bodies : IKnobControl_cpp.Bodies :=
  {| IKnobControl_cpp.scaled := fun delta gearing => (inject_Z delta / gearing)%Q |}.

Definition knob (d : EDirection) : IKnobControl.t :=
  IKnobControl.mk control d (4 # 1).

Definition no_mod : IMouseMod := mkIMouseMod true false false false false.

End Sample.

Module Fixture.

(** Integers to divide: small ones, powers of two and their neighbours,
    and the ends of the range of [int]. *)
Definition ints : list Z :=
  [0; 1; -1; 2; 3; -3; 5; 7; 10; 20; 100; -100; 255; 1000; 4095; 4097;
   65535; 99999; 123456789; -987654321; 2147483647; -2147483648;
   2147483646; 1073741824; 715827883; 1431655765; 46341].

(** Doubles to divide: NaN, the zeros and infinities, numbers around 1,
    the largest number, the smallest ones, and a few others. *)
Definition doubles : list Double.t :=
  [ S754_nan; S754_zero false; S754_zero true;
    S754_infinity false; S754_infinity true;
    S754_finite false 4503599627370496 (-52);
    S754_finite true 6755399441055744 (-52);
    S754_finite false 9007199254740991 0;
    S754_finite false 4503599627370496 (-51);
    S754_finite false 9007199254740991 971;
    S754_finite true 4503599627370496 (-1074);
    S754_finite false 1 (-1074);
    S754_finite false 3 (-1074);
    S754_finite false 4503599627370495 (-1074);
    S754_finite false 6004799503160661 (-54);
    S754_finite false 7205759403792794 (-55);
    S754_finite false 4503599627370497 (-52);
    S754_finite true 9007199254740989 (-1000);
    S754_finite false 5000000000000001 500 ].

(** A base-class constructor that puts the control at [rect], with the
    value 0 and nothing dirty. *)
Definition control_h : IControl_h :=
  {| IControl_ctor := fun _ rect _ =>
       mkIControl rect rect 0 false (IText_handle 0) (IChannelBlend_handle 0) false |}.

Definition plug : IPlugBaseGraphics := plug_handle 1.

End Fixture.

(** * Properties *)

(** ** C strings *)

Lemma is_nul_true (c : ascii) : is_nul c = true <-> c = zero.
Proof. unfold is_nul. apply Ascii.eqb_eq. Qed.

Lemma is_nul_false (c : ascii) : is_nul c = false <-> c <> zero.
Proof. unfold is_nul. apply Ascii.eqb_neq. Qed.

Lemma uchar_inj (c d : ascii) : uchar c = uchar d -> c = d.
Proof.
  unfold uchar. intros E. apply N2Z.inj in E.
  rewrite <- (ascii_N_embedding c), <- (ascii_N_embedding d).
  now rewrite E.
Qed.

Lemma uchar_zero (c : ascii) : uchar c = 0 <-> c = zero.
Proof.
  split.
  - intros E. apply uchar_inj. rewrite E. reflexivity.
  - intros ->. reflexivity.
Qed.

Lemma c_str_idempotent (p : string) : c_str (c_str p) = c_str p.
Proof.
  induction p as [|c p IH]; simpl; [reflexivity|].
  destruct (is_nul c) eqn:E; simpl; [reflexivity|].
  now rewrite E, IH.
Qed.

Lemma c_str_nul_free (p : string) : nul_free (c_str p) = true.
Proof.
  induction p as [|c p IH]; simpl; [reflexivity|].
  destruct (is_nul c) eqn:E; simpl; [reflexivity|].
  now rewrite E, IH.
Qed.

Lemma c_str_of_nul_free (s : string) : nul_free s = true -> c_str s = s.
Proof.
  induction s as [|c s IH]; simpl; [reflexivity|].
  destruct (is_nul c); simpl; [discriminate|].
  intros E. now rewrite IH.
Qed.

Example strcmp_orders : strcmp "gain" "gate" = -11 /\ strcmp "pan" "pa" = 110.
Proof. split; reflexivity. Qed.

(** Bytes after the terminator are not part of the C string. *)
Example strcmp_stops_at_terminator :
  strcmp (String "a" (String zero "x")) (String "a" (String zero "y")) = 0 /\
  c_str (String "a" (String zero "x")) = "a"%string.
Proof. split; reflexivity. Qed.

(** [strcmp] answers zero exactly on pointers to equal C strings. *)
Lemma strcmp_zero_iff (a b : string) : strcmp a b = 0 <-> c_str a = c_str b.
Proof.
  revert b. induction a as [|c a IH]; intros [|d b]; simpl.
  - tauto.
  - destruct (is_nul d) eqn:E.
    + apply is_nul_true in E. subst d. split; reflexivity.
    + split; [|discriminate]. intros Z0.
      apply is_nul_false in E. exfalso. apply E, uchar_zero. lia.
  - destruct (is_nul c) eqn:E.
    + apply is_nul_true in E. subst c. split; reflexivity.
    + split; [|discriminate]. intros Z0.
      apply is_nul_false in E. exfalso. apply E, uchar_zero. lia.
  - destruct (Ascii.eqb c d) eqn:Ecd.
    + apply Ascii.eqb_eq in Ecd. subst d.
      destruct (is_nul c); [tauto|].
      rewrite IH. split; [intros ->; reflexivity | intros E; now inversion E].
    + apply Ascii.eqb_neq in Ecd. split.
      * intros Z0. exfalso. apply Ecd, uchar_inj. lia.
      * intros E. exfalso.
        destruct (is_nul c) eqn:Ec, (is_nul d) eqn:Ed; try discriminate.
        -- apply is_nul_true in Ec, Ed. congruence.
        -- inversion E. contradiction.
Qed.

Lemma truthy_strcmp (a b : string) :
  truthy (strcmp a b) = false <-> c_str a = c_str b.
Proof.
  unfold truthy. rewrite negb_false_iff, Z.eqb_eq. apply strcmp_zero_iff.
Qed.

Lemma truthy_strcmp_differ (a b : string) :
  truthy (strcmp a b) = true <-> c_str a <> c_str b.
Proof.
  rewrite <- truthy_strcmp. destruct (truthy (strcmp a b)); split; congruence.
Qed.

(** ** IBitmapTextControl: the text set from the plug *)

Section BitmapText.
Context `{TK : Toolkit}.
Import IBitmapTextControl.

Lemma SetTextFromPlug_same (str : string) (c : t) :
  stored_text c = c_str str -> SetTextFromPlug str c = (tt, c, []).
Proof.
  intros E. unfold SetTextFromPlug, bind, get.
  apply truthy_strcmp in E. now rewrite E.
Qed.

Lemma SetTextFromPlug_other (str : string) (c : t) :
  stored_text c <> c_str str ->
  SetTextFromPlug str c =
    (tt,
     with_mStr (WDL_String.Set_ str) (with_base (SetDirty_body false) c),
     [Call_SetDirty false]).
Proof.
  intros E. unfold SetTextFromPlug, bind, get.
  apply truthy_strcmp_differ in E. now rewrite E.
Qed.

(** C8: when [str] is the text the control already holds,
    [SetTextFromPlug(str)] leaves the whole control as it is and calls
    nothing; otherwise it calls [SetDirty(false)], once, and then stores
    [str].  Either way the control holds [str] afterwards. *)
Theorem SetTextFromPlug_sets_text (str : string) (c : t) :
  (stored_text c = c_str str ->
     SetTextFromPlug str c = (tt, c, [])) /\
  (stored_text c <> c_str str ->
     SetTextFromPlug str c =
       (tt,
        with_mStr (WDL_String.Set_ str) (with_base (SetDirty_body false) c),
        [Call_SetDirty false])) /\
  stored_text (state_after (SetTextFromPlug str c)) = c_str str.
Proof.
  split; [apply SetTextFromPlug_same|].
  split; [apply SetTextFromPlug_other|].
  destruct (string_dec (stored_text c) (c_str str)) as [E|E].
  - now rewrite SetTextFromPlug_same.
  - rewrite SetTextFromPlug_other by assumption.
    unfold state_after, stored_text; simpl. apply c_str_idempotent.
Qed.

(** C9: [ClearTextFromPlug()] makes the transition of [SetTextFromPlug]
    on the empty string, which is: do nothing when the text is empty
    already, else call [SetDirty(false)] and empty the text. *)
Theorem ClearTextFromPlug_is_SetTextFromPlug_empty (c : t) :
  ClearTextFromPlug c = SetTextFromPlug EmptyString c /\
  ClearTextFromPlug c = ClearTextFromPlug_spec c /\
  (stored_text c = EmptyString -> ClearTextFromPlug c = (tt, c, [])).
Proof.
  split; [reflexivity|].
  assert (Hsame : stored_text c = EmptyString -> ClearTextFromPlug c = (tt, c, [])).
  { intros E. unfold ClearTextFromPlug. now apply SetTextFromPlug_same. }
  split; [|exact Hsame].
  unfold ClearTextFromPlug_spec.
  destruct (stored_text c) as [|a s] eqn:E.
  - apply Hsame. reflexivity.
  - unfold ClearTextFromPlug. rewrite SetTextFromPlug_other; [reflexivity|].
    rewrite E. discriminate.
Qed.

End BitmapText.

(** ** Drawing *)

Lemma CSTR_NOT_EMPTY_iff (p : string) :
  IBitmapTextControl.CSTR_NOT_EMPTY p = true <-> c_str p <> EmptyString.
Proof.
  destruct p as [|c p]; simpl.
  - split; [discriminate | congruence].
  - destruct (is_nul c); simpl; split; congruence.
Qed.

(** C5, as the header has it: of the two [Draw] bodies it holds, the one
    of [IBitmapTextControl] makes one bitmap drawing call when the text is
    not empty, [DrawBitmapedText] of the stored text with the control's
    bitmap, rectangle, text style, blend, flags and metrics, and no call
    when the text is empty; the one of [IURLControl] makes no call.
    Neither changes the control. *)
Theorem Draw_bitmap_calls (c : IBitmapTextControl.t) (u : IURLControl.t) :
  (IBitmapTextControl.stored_text c <> EmptyString ->
     exists op,
       op = Call_DrawBitmapedText (IBitmapTextControl.mTextBitmap c)
              (mRECT (IBitmapTextControl.base c))
              (mText (IBitmapTextControl.base c))
              (mBlend (IBitmapTextControl.base c))
              (IBitmapTextControl.stored_text c)
              (IBitmapTextControl.mVCentre c) (IBitmapTextControl.mMultiLine c)
              (IBitmapTextControl.mCharWidth c) (IBitmapTextControl.mCharHeight c)
              (IBitmapTextControl.mCharOffset c) /\
       calls_of (IBitmapTextControl.Draw c) = [op] /\
       is_bitmap_draw op = true) /\
  (IBitmapTextControl.stored_text c = EmptyString ->
     calls_of (IBitmapTextControl.Draw c) = []) /\
  calls_of (IURLControl.Draw u) = [] /\
  state_after (IBitmapTextControl.Draw c) = c /\
  state_after (IURLControl.Draw u) = u.
Proof.
  unfold IBitmapTextControl.stored_text, IBitmapTextControl.Draw, bind, get.
  destruct (IBitmapTextControl.CSTR_NOT_EMPTY
              (WDL_String.Get (IBitmapTextControl.mStr c))) eqn:E.
  - apply CSTR_NOT_EMPTY_iff in E.
    repeat split; try reflexivity.
    + intros _. eexists. split; [reflexivity|]. split; reflexivity.
    + intros E'. contradiction.
  - assert (E' : c_str (WDL_String.Get (IBitmapTextControl.mStr c)) = EmptyString).
    { destruct (string_dec (c_str (WDL_String.Get (IBitmapTextControl.mStr c)))
                  EmptyString) as [Y|Y]; [exact Y|].
      apply CSTR_NOT_EMPTY_iff in Y. congruence. }
    repeat split; try reflexivity.
    intros Y. contradiction.
Qed.

(** ** The value headroom of a fader handle *)

Lemma inject_Z_zero (z : Z) : (inject_Z z == 0)%Q <-> z = 0.
Proof. unfold Qeq, inject_Z; simpl. lia. Qed.

Lemma ddiv_by_zero (a b : Q) : (b == 0)%Q -> ddiv a b = None.
Proof.
  intros E. unfold ddiv. apply Qeq_bool_iff in E. now rewrite E.
Qed.

Lemma ddiv_defined (a b : Q) : ~ (b == 0)%Q -> ddiv a b = Some (a / b)%Q.
Proof.
  intros E. unfold ddiv.
  destruct (Qeq_bool b 0) eqn:B; [|reflexivity].
  apply Qeq_bool_iff in B. contradiction.
Qed.

(** The quotient before rounding: with [mLen] zero there is none; with
    [mLen] not zero it is the ratio of the handle headroom to the
    length. *)
Lemma GetHandleValueHeadroom_ratio (f : IFaderControl.t) :
  (IFaderControl.mLen f = 0 -> IFaderControl.GetHandleValueHeadroom f = None) /\
  (IFaderControl.mLen f <> 0 ->
     exists q : Q,
       IFaderControl.GetHandleValueHeadroom f = Some q /\
       (q * inject_Z (IFaderControl.mLen f)
          == inject_Z (IFaderControl.mHandleHeadroom f))%Q).
Proof.
  unfold IFaderControl.GetHandleValueHeadroom, double_of_int. split.
  - intros E. apply ddiv_by_zero. now apply inject_Z_zero.
  - intros E.
    assert (NZ : ~ (inject_Z (IFaderControl.mLen f) == 0)%Q)
      by (rewrite inject_Z_zero; exact E).
    eexists. split; [now apply ddiv_defined|].
    rewrite Qmult_comm. now apply Qmult_div_r.
Qed.

(** ** Hit testing *)

Lemma Contains_inside (r : IRECT) (x y : Z) :
  Contains r x y = true <-> inside r x y.
Proof.
  unfold Contains, inside.
  rewrite !andb_true_iff, !Z.leb_le, !Z.ltb_lt. tauto.
Qed.

(** C4: a control is hit exactly at the points inside its target
    rectangle; a fader is hit exactly at the points inside its handle
    rectangle when only the handle is clickable, and inside its target
    rectangle otherwise. *)
Theorem IsHit_is_rectangle_containment `{FB : IFaderControl.Bodies} :
  (forall (c : IControl) (x y : Z),
     IControl_IsHit c x y = true <-> inside (mTargetRECT c) x y) /\
  (forall (f : IFaderControl.t) (x y : Z),
     IFaderControl_cpp.IsHit f x y = true <->
     inside (IFaderControl_cpp.hit_rect f) x y) /\
  (forall f : IFaderControl.t,
     IFaderControl_cpp.hit_rect f =
       if IFaderControl.mOnlyHandle f
       then IFaderControl.GetHandleRECT f
       else mTargetRECT (IFaderControl.base f)).
Proof.
  split; [|split].
  - intros c x y. apply Contains_inside.
  - intros f x y. unfold IFaderControl_cpp.IsHit, IFaderControl_cpp.hit_rect.
    destruct (IFaderControl.mOnlyHandle f); apply Contains_inside.
  - reflexivity.
Qed.

(** ** The switch *)

Section Switch.
Context `{ST : ISwitchControl.States}.
Import ISwitchControl.

Lemma next_state_mod (n k : Z) : 0 <= k < n -> next_state n k = (k + 1) mod n.
Proof.
  intros Hk. unfold next_state.
  destruct (k + 1 <? n) eqn:E.
  - apply Z.ltb_lt in E. symmetry. apply Z.mod_small. lia.
  - apply Z.ltb_ge in E. assert (k + 1 = n) as -> by lia.
    symmetry. apply Z.mod_same. lia.
Qed.

Lemma OnMouseDown_mBitmap x y m (s : t) : mBitmap (OnMouseDown x y m s) = mBitmap s.
Proof. reflexivity. Qed.

Lemma clicks_mBitmap (n : nat) x y m (s : t) : mBitmap (clicks n x y m s) = mBitmap s.
Proof.
  induction n as [|n IH]; [reflexivity|].
  change (clicks (S n) x y m s) with (OnMouseDown x y m (clicks n x y m s)).
  now rewrite OnMouseDown_mBitmap.
Qed.

Lemma OnMouseDown_value x y m (s : t) (k : Z) :
  0 <= k < N (mBitmap s) ->
  mValue (base s) = state_value (mBitmap s) k ->
  mValue (base (OnMouseDown x y m s)) =
    state_value (mBitmap s) ((k + 1) mod N (mBitmap s)).
Proof.
  intros Hk Hv. unfold OnMouseDown; simpl.
  now rewrite Hv, shows_at_own_value, next_state_mod.
Qed.

Lemma clicks_value (n : nat) x y m (s : t) (k : Z) :
  0 <= k < N (mBitmap s) ->
  mValue (base s) = state_value (mBitmap s) k ->
  mValue (base (clicks n x y m s)) =
    state_value (mBitmap s) ((k + Z.of_nat n) mod N (mBitmap s)).
Proof.
  intros Hk Hv. induction n as [|n IH].
  - simpl. rewrite Z.add_0_r, Z.mod_small; assumption.
  - change (clicks (S n) x y m s) with (OnMouseDown x y m (clicks n x y m s)).
    rewrite (OnMouseDown_value x y m _ ((k + Z.of_nat n) mod N (mBitmap s))).
    + rewrite clicks_mBitmap, Z.add_mod_idemp_l by lia.
      f_equal. f_equal. lia.
    + rewrite clicks_mBitmap. apply Z.mod_pos_bound. lia.
    + now rewrite clicks_mBitmap.
Qed.

Lemma next_state_range (n k : Z) : 0 <= k < n -> 0 <= next_state n k < n.
Proof.
  intros Hk. rewrite next_state_mod by assumption. apply Z.mod_pos_bound. lia.
Qed.

Lemma OnMouseDown_state x y m (s : t) :
  1 <= N (mBitmap s) ->
  mValue (base (OnMouseDown x y m s)) =
    state_value (mBitmap s)
      (next_state (N (mBitmap s)) (value_state (mBitmap s) (mValue (base s)))) /\
  value_state (mBitmap s) (mValue (base (OnMouseDown x y m s))) =
    next_state (N (mBitmap s)) (value_state (mBitmap s) (mValue (base s))).
Proof.
  intros HN.
  assert (V : mValue (base (OnMouseDown x y m s)) =
              state_value (mBitmap s)
                (next_state (N (mBitmap s)) (value_state (mBitmap s) (mValue (base s)))))
    by reflexivity.
  split; [exact V|].
  rewrite V. apply shows_at_own_value, next_state_range, shows_a_state, HN.
Qed.

Lemma clicks_state (n : nat) x y m (s : t) :
  1 <= N (mBitmap s) ->
  value_state (mBitmap s) (mValue (base (clicks n x y m s))) =
    (value_state (mBitmap s) (mValue (base s)) + Z.of_nat n) mod N (mBitmap s) /\
  ((1 <= n)%nat ->
   mValue (base (clicks n x y m s)) =
     state_value (mBitmap s)
       ((value_state (mBitmap s) (mValue (base s)) + Z.of_nat n) mod N (mBitmap s))).
Proof.
  intros HN. induction n as [|n [IHs _]].
  - split; [|lia]. simpl. rewrite Z.add_0_r, Z.mod_small; [reflexivity|].
    now apply shows_a_state.
  - change (clicks (S n) x y m s) with (OnMouseDown x y m (clicks n x y m s)).
    destruct (OnMouseDown_state x y m (clicks n x y m s)) as [V W];
      [now rewrite clicks_mBitmap|].
    rewrite clicks_mBitmap in V, W. rewrite IHs in V, W.
    rewrite next_state_mod in V, W by (apply Z.mod_pos_bound; lia).
    rewrite Z.add_mod_idemp_l in V, W by lia.
    replace (value_state (mBitmap s) (mValue (base s)) + Z.of_nat (S n))
      with (value_state (mBitmap s) (mValue (base s)) + Z.of_nat n + 1) by lia.
    split; [exact W | intros _; exact V].
Qed.

(** C1: on every switch whose bitmap has [N >= 1] states, a click moves
    the value to the state after the one it shows, the first state
    following the last, and [N] clicks in a row bring the value back to
    the state it started in; a value that started on a state is then the
    starting value again. *)
Theorem OnMouseDown_cycles_through_states x y m (s : t) :
  1 <= N (mBitmap s) ->
  let b := mBitmap s in
  let k := value_state b (mValue (base s)) in
  mValue (base (OnMouseDown x y m s)) =
    state_value b (if k + 1 <? N b then k + 1 else 0) /\
  value_state b (mValue (base (OnMouseDown x y m s))) =
    (if k + 1 <? N b then k + 1 else 0) /\
  value_state b (mValue (base (clicks (Z.to_nat (N b)) x y m s))) = k /\
  mValue (base (clicks (Z.to_nat (N b)) x y m s)) = state_value b k /\
  (mValue (base s) = state_value b k ->
   mValue (base (clicks (Z.to_nat (N b)) x y m s)) = mValue (base s)).
Proof.
  intros HN b k.
  destruct (OnMouseDown_state x y m s HN) as [V W].
  destruct (clicks_state (Z.to_nat (N b)) x y m s HN) as [CS CV].
  assert (R : (k + Z.of_nat (Z.to_nat (N b))) mod N b = k).
  { rewrite Z2Nat.id by (unfold b; lia).
    rewrite <- (Z.mul_1_l (N b)) at 1.
    rewrite Z.mod_add by (unfold b; lia).
    apply Z.mod_small. now apply shows_a_state. }
  fold b in CS, CV. fold k in CS, CV. rewrite R in CS, CV.
  assert (CV' : mValue (base (clicks (Z.to_nat (N b)) x y m s)) = state_value b k)
    by (apply CV; unfold b; lia).
  repeat split; try assumption.
  intros G. now rewrite CV'.
Qed.

End Switch.

(** ** The knob *)

Section Knob.
Context `{KB : IKnobControl_cpp.Bodies}.
Import IKnobControl IKnobControl_cpp.

(** C2: a drag changes the value of a knob by the drag's component along
    [mDirection] ([dY] when vertical, [dX] when horizontal) scaled by
    [mGearing]; drags with the same component along that axis change the
    knob in the same way. *)
Theorem OnMouseDrag_maps_delta (x y dX dY : Z) (m : IMouseMod) (k : t) :
  mValue (base (OnMouseDrag x y dX dY m k)) =
    (mValue (base k) + scaled (along (mDirection k) dX dY) (mGearing k))%Q /\
  (mDirection k = kVertical ->
     mValue (base (OnMouseDrag x y dX dY m k)) =
       (mValue (base k) + scaled dY (mGearing k))%Q) /\
  (mDirection k = kHorizontal ->
     mValue (base (OnMouseDrag x y dX dY m k)) =
       (mValue (base k) + scaled dX (mGearing k))%Q) /\
  (forall (x' y' dX' dY' : Z) (m' : IMouseMod),
     along (mDirection k) dX' dY' = along (mDirection k) dX dY ->
     OnMouseDrag x' y' dX' dY' m' k = OnMouseDrag x y dX dY m k).
Proof.
  unfold OnMouseDrag, along.
  destruct (mDirection k); simpl; repeat split; try discriminate; try reflexivity.
  - intros x' y' dX' dY' m' ->. reflexivity.
  - intros x' y' dX' dY' m' ->. reflexivity.
Qed.

End Knob.

(** ** The class hierarchy *)

Lemma bases_derives (fuel : nat) (c a : Hierarchy.Class) :
  In a (Hierarchy.bases fuel c) -> Hierarchy.derives c a.
Proof.
  revert c. induction fuel as [|fuel IH]; intros c; simpl; [tauto|].
  destruct (Hierarchy.base_of c) as [b|] eqn:E; simpl; [|tauto].
  intros [<-|Hin].
  - now apply Hierarchy.derives_direct.
  - eapply Hierarchy.derives_trans; [exact E | now apply IH].
Qed.

(** C6: the header defines at least one class of each kind (knob, slider,
    switch, radio buttons, caption, URL link, bitmap text), and every class
    it defines has [IControl], which has no base, among its direct or
    transitive bases. *)
Theorem widgets_derive_from_IControl :
  (forall k : Hierarchy.Kind,
     exists c, In c Hierarchy.defined_in_header /\ Hierarchy.kind_of c = Some k) /\
  Forall (fun c => Hierarchy.derives c Hierarchy.IControl)
         Hierarchy.defined_in_header /\
  Hierarchy.base_of Hierarchy.IControl = None.
Proof.
  split; [|split].
  - intros k.
    destruct (Hierarchy.classes_of_kind k) as [|c l] eqn:E;
      [destruct k; discriminate|].
    exists c.
    assert (Hin : In c (Hierarchy.classes_of_kind k)) by (rewrite E; now left).
    unfold Hierarchy.classes_of_kind in Hin. apply filter_In in Hin.
    destruct Hin as [Hin Hk]. split; [exact Hin|].
    destruct (Hierarchy.kind_of c) as [k'|]; [|discriminate].
    destruct k, k'; try discriminate; reflexivity.
  - apply Forall_forall. intros c Hin. simpl in Hin.
    repeat (destruct Hin as [<-|Hin]; [apply (bases_derives 3); simpl; tauto|]).
    contradiction.
  - reflexivity.
Qed.

(** ** The properties at the sample objects *)

(** Setting the text a label already shows, and setting another one. *)
Lemma SetTextFromPlug_sets_text_witness :
  @IBitmapTextControl.SetTextFromPlug Sample.toolkit "gain" (Sample.label "gain")
    = (tt, Sample.label "gain", []) /\
  @IBitmapTextControl.SetTextFromPlug Sample.toolkit "pan" (Sample.label "gain")
    = (tt,
       IBitmapTextControl.mk (set_mDirty true Sample.control) (WDL_String.mk "pan")
         6 12 0 Sample.font false true,
       [Call_SetDirty false]).
Proof.
  split.
  - apply (proj1 (@SetTextFromPlug_sets_text Sample.toolkit "gain" (Sample.label "gain"))).
    reflexivity.
  - apply (proj1 (proj2 (@SetTextFromPlug_sets_text Sample.toolkit "pan" (Sample.label "gain")))).
    vm_compute. discriminate.
Defined.

(** Clearing a label that is empty already. *)
Lemma ClearTextFromPlug_is_SetTextFromPlug_empty_witness :
  @IBitmapTextControl.ClearTextFromPlug Sample.toolkit (Sample.label EmptyString)
    = (tt, Sample.label EmptyString, []).
Proof.
  apply (proj2 (proj2 (@ClearTextFromPlug_is_SetTextFromPlug_empty
                         Sample.toolkit (Sample.label EmptyString)))).
  reflexivity.
Defined.

(** C5 fails as stated: drawing a URL control, or a bitmap text control
    whose text is empty, makes no bitmap drawing call. *)
Lemma Draw_without_bitmap_call :
  existsb is_bitmap_draw (calls_of (IURLControl.Draw Sample.link)) = false /\
  existsb is_bitmap_draw
    (calls_of (IBitmapTextControl.Draw (Sample.label EmptyString))) = false.
Proof. split; reflexivity. Qed.

(** A label with a text draws it; an empty one draws nothing. *)
Lemma Draw_bitmap_calls_witness :
  (exists op,
     op = Call_DrawBitmapedText Sample.font Sample.rect (IText_handle 0)
            (IChannelBlend_handle 0) "gain" true false 6 12 0 /\
     calls_of (IBitmapTextControl.Draw (Sample.label "gain")) = [op] /\
     is_bitmap_draw op = true) /\
  calls_of (IBitmapTextControl.Draw (Sample.label EmptyString)) = [].
Proof.
  split.
  - apply (proj1 (Draw_bitmap_calls (Sample.label "gain") Sample.link)).
    vm_compute. discriminate.
  - apply (proj1 (proj2 (Draw_bitmap_calls (Sample.label EmptyString) Sample.link))).
    reflexivity.
Defined.


(** A switch of three states whose value lies between the first two, and
    one whose value is on the last state. *)
Lemma OnMouseDown_cycles_through_states_witness :
  (mValue (ISwitchControl.base
             (@ISwitchControl.OnMouseDown Sample.states 12 34 Sample.no_mod
                (Sample.switch_at 3 (1 # 2))))
     = inject_Z 1 /\
   @ISwitchControl.value_state Sample.states (mkIBitmap 40 20 3)
     (mValue (ISwitchControl.base
                (@ISwitchControl.clicks Sample.states 3 12 34 Sample.no_mod
                   (Sample.switch_at 3 (1 # 2)))))
     = 0) /\
  mValue (ISwitchControl.base
            (@ISwitchControl.clicks Sample.states 3 12 34 Sample.no_mod
               (Sample.switch 3 2)))
    = inject_Z 2.
Proof.
  split.
  - assert (H3 : 1 <= N (ISwitchControl.mBitmap (Sample.switch_at 3 (1 # 2))))
      by (simpl; lia).
    pose proof (@OnMouseDown_cycles_through_states Sample.states 12 34 Sample.no_mod
                  (Sample.switch_at 3 (1 # 2)) H3) as [V [_ [W _]]].
    split; [exact V | exact W].
  - assert (H3 : 1 <= N (ISwitchControl.mBitmap (Sample.switch 3 2)))
      by (simpl; lia).
    pose proof (@OnMouseDown_cycles_through_states Sample.states 12 34 Sample.no_mod
                  (Sample.switch 3 2) H3) as [_ [_ [_ [_ G]]]].
    apply G. reflexivity.
Defined.

(** A vertical knob dragged by (7, -3), then by (0, -3). *)
Lemma OnMouseDrag_maps_delta_witness :
  mValue (IKnobControl.base
            (@IKnobControl_cpp.OnMouseDrag Sample.knob_bodies 12 34 7 (-3)
               Sample.no_mod (Sample.knob kVertical)))
    = ((1 # 2) + (inject_Z (-3) / (4 # 1)))%Q /\
  @IKnobControl_cpp.OnMouseDrag Sample.knob_bodies 0 0 0 (-3) Sample.no_mod
     (Sample.knob kVertical)
    = @IKnobControl_cpp.OnMouseDrag Sample.knob_bodies 12 34 7 (-3) Sample.no_mod
        (Sample.knob kVertical).
Proof.
  pose proof (@OnMouseDrag_maps_delta Sample.knob_bodies 12 34 7 (-3)
                Sample.no_mod (Sample.knob kVertical)) as [_ [V [_ D]]].
  split.
  - apply V. reflexivity.
  - apply D. reflexivity.
Defined.

(** * Further properties of the code in the header *)

(** ** Sequencing methods *)

Lemma bind_state {St A B} (m : Method St A) (k : A -> Method St B) (s : St) :
  state_after (bind m k s) = state_after (k (fst (fst (m s))) (state_after (m s))).
Proof.
  unfold bind, state_after.
  destruct (m s) as [[a s1] t1]; simpl.
  destruct (k a s1) as [[b s2] t2]; reflexivity.
Qed.

Lemma bind_calls {St A B} (m : Method St A) (k : A -> Method St B) (s : St) :
  calls_of (bind m k s) =
    calls_of (m s) ++ calls_of (k (fst (fst (m s))) (state_after (m s))).
Proof.
  unfold bind, state_after, calls_of.
  destruct (m s) as [[a s1] t1]; simpl.
  destruct (k a s1) as [[b s2] t2]; reflexivity.
Qed.

Lemma last_cons {A} (x d : A) (l : list A) : last (x :: l) d = last l x.
Proof.
  revert x d. induction l as [|y l IH]; intros x d; [reflexivity|].
  change (last (x :: y :: l) d) with (last (y :: l) d).
  now rewrite (IH y d), (IH y x).
Qed.

(** ** IBitmapTextControl: repeated and combined calls *)

Section BitmapTextMore.
Context `{TK : Toolkit}.
Import IBitmapTextControl.

Lemma SetTextFromPlug_stored_text (str : string) (c : t) :
  stored_text (state_after (SetTextFromPlug str c)) = c_str str.
Proof.
  destruct (string_dec (stored_text c) (c_str str)) as [E|E].
  - now rewrite SetTextFromPlug_same.
  - rewrite SetTextFromPlug_other by assumption.
    unfold state_after, stored_text; simpl. apply c_str_idempotent.
Qed.

Lemma SetTextFromPlug_calls (str : string) (c : t) :
  calls_of (SetTextFromPlug str c) =
    if String.eqb (stored_text c) (c_str str) then [] else [Call_SetDirty false].
Proof.
  destruct (String.eqb (stored_text c) (c_str str)) eqn:E.
  - apply String.eqb_eq in E. now rewrite SetTextFromPlug_same.
  - apply String.eqb_neq in E. now rewrite SetTextFromPlug_other.
Qed.

(** X1: setting the same text twice in a row changes nothing the second
    time: the second call leaves the control as the first one left it and
    does not call [SetDirty]. *)
Theorem SetTextFromPlug_twice (str : string) (c : t) :
  SetTextFromPlug str (state_after (SetTextFromPlug str c)) =
    (tt, state_after (SetTextFromPlug str c), []).
Proof.
  apply SetTextFromPlug_same. apply SetTextFromPlug_stored_text.
Qed.

(** X2: whatever the argument, [SetTextFromPlug] touches only the
    base-class state and [mStr]: the font bitmap, the character metrics
    and the layout flags stay as they are; it makes no drawing call, and
    its only call, if any, is a single [SetDirty(false)]. *)
Theorem SetTextFromPlug_frame (str : string) (c : t) :
  let c' := state_after (SetTextFromPlug str c) in
  mTextBitmap c' = mTextBitmap c /\
  mCharWidth c' = mCharWidth c /\
  mCharHeight c' = mCharHeight c /\
  mCharOffset c' = mCharOffset c /\
  mMultiLine c' = mMultiLine c /\
  mVCentre c' = mVCentre c /\
  (calls_of (SetTextFromPlug str c) = [] \/
   calls_of (SetTextFromPlug str c) = [Call_SetDirty false]) /\
  existsb is_bitmap_draw (calls_of (SetTextFromPlug str c)) = false.
Proof.
  destruct (string_dec (stored_text c) (c_str str)) as [E|E].
  - rewrite SetTextFromPlug_same by assumption.
    simpl. repeat split; auto.
  - rewrite SetTextFromPlug_other by assumption.
    simpl. repeat split; auto.
Qed.

(** X3: over a run of [SetTextFromPlug] calls, [SetDirty(false)] is called
    once for each text that differs from the one the control held just
    before, and never otherwise; at the end the control holds the last
    text of the run (its old text when the run is empty). *)
Theorem SetTexts_marks_dirty_per_change (l : list string) (c : t) :
  calls_of (SetTexts l c) = repeat (Call_SetDirty false) (changes (stored_text c) l) /\
  stored_text (state_after (SetTexts l c)) = last (map c_str l) (stored_text c).
Proof.
  revert c. induction l as [|s l IH]; intros c.
  - split; reflexivity.
  - change (SetTexts (s :: l)) with (bind (SetTextFromPlug s) (fun _ => SetTexts l)).
    rewrite bind_calls, bind_state.
    destruct (IH (state_after (SetTextFromPlug s c))) as [IHc IHs].
    rewrite IHc, IHs, SetTextFromPlug_stored_text, SetTextFromPlug_calls.
    split.
    + simpl changes. destruct (String.eqb (stored_text c) (c_str s)); reflexivity.
    + simpl map. now rewrite last_cons.
Qed.

(** X4: after [SetTextFromPlug(str)] with a [str] that is not empty,
    [Draw] makes exactly one call, [DrawBitmapedText], and the text it
    passes is [str]; the bitmap, metrics and flags it passes are those
    the control had before the text was set. *)
Theorem Draw_after_SetTextFromPlug (str : string) (c : t) :
  c_str str <> EmptyString ->
  let c' := state_after (SetTextFromPlug str c) in
  calls_of (Draw c') =
    [Call_DrawBitmapedText (mTextBitmap c) (mRECT (base c')) (mText (base c'))
       (mBlend (base c')) (c_str str) (mVCentre c) (mMultiLine c)
       (mCharWidth c) (mCharHeight c) (mCharOffset c)].
Proof.
  intros NE c'.
  assert (T : stored_text c' = c_str str) by apply SetTextFromPlug_stored_text.
  assert (F : mTextBitmap c' = mTextBitmap c /\ mVCentre c' = mVCentre c /\
              mMultiLine c' = mMultiLine c /\ mCharWidth c' = mCharWidth c /\
              mCharHeight c' = mCharHeight c /\ mCharOffset c' = mCharOffset c).
  { subst c'. destruct (string_dec (stored_text c) (c_str str)) as [E|E].
    - rewrite SetTextFromPlug_same by assumption. simpl. tauto.
    - rewrite SetTextFromPlug_other by assumption. simpl. tauto. }
  destruct F as (F1 & F2 & F3 & F4 & F5 & F6).
  unfold Draw, bind, get.
  assert (G : CSTR_NOT_EMPTY (WDL_String.Get (mStr c')) = true).
  { apply CSTR_NOT_EMPTY_iff. unfold stored_text in T. now rewrite T. }
  rewrite G. unfold call, calls_of; simpl.
  unfold stored_text in T. now rewrite T, F1, F2, F3, F4, F5, F6.
Qed.

(** X5: after [ClearTextFromPlug()], whatever text the control held,
    it holds the empty text and [Draw] makes no call at all. *)
Theorem Draw_after_ClearTextFromPlug (c : t) :
  let c' := state_after (ClearTextFromPlug c) in
  stored_text c' = EmptyString /\ calls_of (Draw c') = [].
Proof.
  intros c'.
  assert (T : stored_text c' = EmptyString)
    by (subst c'; unfold ClearTextFromPlug; apply SetTextFromPlug_stored_text).
  split; [exact T|].
  unfold Draw, bind, get.
  destruct (CSTR_NOT_EMPTY (WDL_String.Get (mStr c'))) eqn:G; [|reflexivity].
  apply CSTR_NOT_EMPTY_iff in G. contradiction.
Qed.

End BitmapTextMore.

(** X6: [Draw] of a bitmap text control never hands the graphics an
    empty text: every call it makes is a [DrawBitmapedText] of the text
    the control holds, which is then not empty.  Whatever the text, [Draw]
    leaves the control as it was, so that drawing again makes the same
    calls. *)
Theorem Draw_text_never_empty (c : IBitmapTextControl.t) :
  (forall op : Call,
     In op (calls_of (IBitmapTextControl.Draw c)) ->
     drawn_text op = Some (IBitmapTextControl.stored_text c) /\
     IBitmapTextControl.stored_text c <> EmptyString) /\
  state_after (IBitmapTextControl.Draw c) = c /\
  calls_of (IBitmapTextControl.Draw (state_after (IBitmapTextControl.Draw c))) =
    calls_of (IBitmapTextControl.Draw c).
Proof.
  assert (S : state_after (IBitmapTextControl.Draw c) = c).
  { unfold IBitmapTextControl.Draw, bind, get.
    destruct (IBitmapTextControl.CSTR_NOT_EMPTY
                (WDL_String.Get (IBitmapTextControl.mStr c))); reflexivity. }
  split; [|split; [exact S | now rewrite S]].
  intros op.
  unfold IBitmapTextControl.Draw, bind, get, IBitmapTextControl.stored_text.
  destruct (IBitmapTextControl.CSTR_NOT_EMPTY
              (WDL_String.Get (IBitmapTextControl.mStr c))) eqn:G.
  - unfold call, calls_of; simpl.
    intros [<-|[]]. simpl.
    apply CSTR_NOT_EMPTY_iff in G. auto.
  - simpl. intros [].
Qed.

(** ** Freshly constructed controls *)

Section Fresh.
Context `{TK : Toolkit} `{CH : IControl_h}.
Import IBitmapTextControl Construct.

(** X7: a bitmap text control comes out of its constructor holding the
    text it was given, so that setting this text again is silent; built
    with an empty text it draws nothing and clearing it is silent.  The
    [text] argument has no effect: the control is the same whatever is
    passed for it, with the text style the base-class constructor set. *)
Theorem IBitmapTextControl_ctor_fresh (plug : IPlugBaseGraphics) (rect : IRECT)
    (bitmap : IBitmap) (str : string) (text : option IText)
    (charWidth charHeight charOffset : Z) (multiLine vCenter : bool) :
  let c := IBitmapTextControl_ctor plug rect bitmap str text
             charWidth charHeight charOffset multiLine vCenter in
  stored_text c = c_str str /\
  SetTextFromPlug str c = (tt, c, []) /\
  (c_str str = EmptyString ->
     calls_of (Draw c) = [] /\ ClearTextFromPlug c = (tt, c, [])) /\
  calls_of (Draw (IBitmapTextControl_ctor_default plug rect bitmap)) = [] /\
  (forall text' : option IText,
     IBitmapTextControl_ctor plug rect bitmap str text'
       charWidth charHeight charOffset multiLine vCenter = c) /\
  mText (base c) = mText (IControl_ctor plug rect None).
Proof.
  intros c.
  assert (T : stored_text c = c_str str)
    by (unfold c, stored_text; simpl; apply c_str_idempotent).
  split; [exact T|].
  split; [now apply SetTextFromPlug_same|].
  split; [|repeat split; reflexivity].
  intros E. rewrite E in T. split.
  - unfold Draw, bind, get.
    destruct (CSTR_NOT_EMPTY (WDL_String.Get (mStr c))) eqn:G; [|reflexivity].
    apply CSTR_NOT_EMPTY_iff in G. contradiction.
  - unfold ClearTextFromPlug. now apply SetTextFromPlug_same.
Qed.

End Fresh.

(** ** The knob's gearing *)

Section Gearing.
Context `{CH : IControl_h}.
Import IKnobControl Construct.

(** [SetGearing] replaces the gearing and nothing else: a knob built
    with one gearing and then set to another is the knob built with the
    other; of two settings in a row only the second counts; and setting
    the gearing a knob already has leaves the knob as it is. *)
Lemma SetGearing_replaces_gearing (plug : IPlugBaseGraphics) (rect : IRECT)
    (paramIdx : Z) (direction : EDirection) (g0 g g' : Q) (k : t) :
  SetGearing g (IKnobControl_ctor plug rect paramIdx direction g0) =
    IKnobControl_ctor plug rect paramIdx direction g /\
  SetGearing g (SetGearing g' k) = SetGearing g k /\
  SetGearing (mGearing k) k = k /\
  mGearing (SetGearing g k) = g /\
  base (SetGearing g k) = base k /\
  mDirection (SetGearing g k) = mDirection k.
Proof.
  destruct k as [b d q]. repeat split; reflexivity.
Qed.

End Gearing.

(** ** The value headroom as a fraction *)


(** ** The shape of the hierarchy *)

Lemma derives_bases (c a : Hierarchy.Class) :
  Hierarchy.derives c a -> In a (Hierarchy.bases 3 c).
Proof.
  induction 1 as [c a E | c b a E D IH].
  - destruct c; inversion E; subst; simpl; auto.
  - destruct c; inversion E; subst; simpl in IH |- *; tauto.
Qed.

(** X9: the chain [bases] computes holds exactly the direct and
    transitive bases of a class; no class is among its own bases, and no
    class has more than three. *)
Theorem bases_are_the_ancestors (c : Hierarchy.Class) :
  (forall a, Hierarchy.derives c a <-> In a (Hierarchy.bases 3 c)) /\
  ~ Hierarchy.derives c c /\
  (List.length (Hierarchy.bases 3 c) <= 3)%nat /\
  (forall fuel, (3 <= fuel)%nat -> Hierarchy.bases fuel c = Hierarchy.bases 3 c).
Proof.
  split; [|split; [|split]].
  - intros a. split; [apply derives_bases | apply bases_derives].
  - intros D. apply derives_bases in D.
    destruct c; simpl in D; intuition discriminate.
  - destruct c; simpl; lia.
  - intros fuel Hf.
    destruct fuel as [|[|[|[|fuel]]]]; try lia; destruct c; reflexivity.
Qed.

(** ** Which declaration a call reaches *)

Lemma Member_eqb_eq (a b : Members.Member) : Members.Member_eqb a b = true <-> a = b.
Proof.
  split.
  - destruct a, b; simpl; intros E; try discriminate; reflexivity.
  - intros ->. destruct b; reflexivity.
Qed.

Lemma declares_In (c : Hierarchy.Class) (m : Members.Member) :
  Members.declares c m = true <-> In m (Members.declared_in_header c).
Proof.
  unfold Members.declares. rewrite existsb_exists. split.
  - intros [x [Hin E]]. apply Member_eqb_eq in E. now subst.
  - intros Hin. exists m. split; [exact Hin | now apply Member_eqb_eq].
Qed.

(** When [resolve] answers with a class, that class lists the member
    in the header and is the object's class or one of its bases, and the
    object's own class is the answer whenever it lists the member; when
    it answers with none, neither the class nor any of its bases lists
    the member in the header. *)
Lemma resolve_finds_nearest_declaration
    (c : Hierarchy.Class) (m : Members.Member) :
  (forall d, Members.resolve c m = Some d ->
     In m (Members.declared_in_header d) /\ (d = c \/ Hierarchy.derives c d)) /\
  (In m (Members.declared_in_header c) -> Members.resolve c m = Some c) /\
  (Members.resolve c m = None ->
     ~ In m (Members.declared_in_header c) /\
     forall a, Hierarchy.derives c a -> ~ In m (Members.declared_in_header a)).
Proof.
  unfold Members.resolve. split; [|split].
  - intros d E. apply find_some in E. destruct E as [Hin Hd].
    split; [now apply declares_In|].
    destruct Hin as [->|Hin]; [now left | right; now apply (bases_derives 3)].
  - intros Hin. apply declares_In in Hin. simpl. now rewrite Hin.
  - intros E. split.
    + intros Hin. apply declares_In in Hin.
      rewrite (find_none _ _ E c) in Hin; [discriminate | now left].
    + intros a D Hin. apply declares_In in Hin. apply derives_bases in D.
      rewrite (find_none _ _ E a) in Hin; [discriminate | now right].
Qed.

(** X11: [SetGearing], [OnMouseDrag] and [OnMouseWheel] of [IKnobControl]
    serve every knob: a class reaches [IKnobControl::SetGearing] exactly
    when it is [IKnobControl] or derives from it, and such a class
    reaches [IKnobControl]'s [OnMouseDrag] and [OnMouseWheel] too, none of
    the knobs overriding them. *)
Theorem knobs_share_IKnobControl_handlers (c : Hierarchy.Class) :
  (Members.resolve c Members.SetGearing = Some Hierarchy.IKnobControl <->
     c = Hierarchy.IKnobControl \/ Hierarchy.derives c Hierarchy.IKnobControl) /\
  (c = Hierarchy.IKnobControl \/ Hierarchy.derives c Hierarchy.IKnobControl ->
     Members.resolve c Members.OnMouseDrag = Some Hierarchy.IKnobControl /\
     Members.resolve c Members.OnMouseWheel = Some Hierarchy.IKnobControl).
Proof.
  assert (K : c = Hierarchy.IKnobControl \/ Hierarchy.derives c Hierarchy.IKnobControl ->
              c = Hierarchy.IKnobControl \/ c = Hierarchy.IKnobLineControl \/
              c = Hierarchy.IKnobRotaterControl \/ c = Hierarchy.IKnobMultiControl \/
              c = Hierarchy.IKnobRotatingMaskControl).
  { intros [->|D]; [now left|]. apply derives_bases in D.
    destruct c; simpl in D; intuition discriminate. }
  split; [split|].
  - intros E. destruct c; try discriminate E; try (now left);
      right; apply (bases_derives 3); simpl; auto.
  - intros H. apply K in H.
    destruct H as [->|[->|[->|[->| ->]]]]; reflexivity.
  - intros H. apply K in H.
    destruct H as [->|[->|[->|[->| ->]]]]; split; reflexivity.
Qed.

(** X12: among the classes that derive from [ISwitchControl], a double
    click always reaches [ISwitchControl::OnMouseDblClick]; a click
    reaches [ISwitchControl::OnMouseDown] except in the two classes that
    override it, [ISwitchPopUpControl] and [ISwitchFramesControl]; and
    only [IContactControl] handles the release of the button in the
    header. *)
Theorem switches_share_ISwitchControl_handlers (c : Hierarchy.Class) :
  Hierarchy.derives c Hierarchy.ISwitchControl ->
  Members.resolve c Members.OnMouseDblClick = Some Hierarchy.ISwitchControl /\
  (Members.resolve c Members.OnMouseDown = Some Hierarchy.ISwitchControl <->
     c <> Hierarchy.ISwitchPopUpControl /\ c <> Hierarchy.ISwitchFramesControl) /\
  (Members.resolve c Members.OnMouseDown = Some c <->
     c = Hierarchy.ISwitchPopUpControl \/ c = Hierarchy.ISwitchFramesControl) /\
  (Members.resolve c Members.OnMouseUp <> None <-> c = Hierarchy.IContactControl).
Proof.
  intros D. apply derives_bases in D.
  destruct c; simpl in D; try (exfalso; intuition discriminate);
    (split; [reflexivity|]); cbv;
    repeat split; intros; try discriminate; try reflexivity;
    try (intuition congruence); auto.
Qed.

(** ** The further properties at sample objects *)

(** An empty label set to a text, then drawn. *)
Lemma Draw_after_SetTextFromPlug_witness :
  calls_of
    (IBitmapTextControl.Draw
       (state_after
          (@IBitmapTextControl.SetTextFromPlug Sample.toolkit "pan"
             (Sample.label EmptyString)))) =
    [Call_DrawBitmapedText Sample.font Sample.rect (IText_handle 0)
       (IChannelBlend_handle 0) "pan" true false 6 12 0].
Proof.
  apply (@Draw_after_SetTextFromPlug Sample.toolkit "pan" (Sample.label EmptyString)).
  vm_compute. discriminate.
Defined.

(** The call a label with a text makes when drawn. *)
Lemma Draw_text_never_empty_witness :
  drawn_text
    (Call_DrawBitmapedText Sample.font Sample.rect (IText_handle 0)
       (IChannelBlend_handle 0) "gain" true false 6 12 0) = Some "gain"%string /\
  IBitmapTextControl.stored_text (Sample.label "gain") <> EmptyString.
Proof.
  apply (proj1 (Draw_text_never_empty (Sample.label "gain"))
           (Call_DrawBitmapedText Sample.font Sample.rect (IText_handle 0)
              (IChannelBlend_handle 0) "gain" true false 6 12 0)).
  left. reflexivity.
Defined.

(** A control built with no text argument. *)
Lemma IBitmapTextControl_ctor_fresh_witness :
  calls_of
    (IBitmapTextControl.Draw
       (@Construct.IBitmapTextControl_ctor Fixture.control_h Fixture.plug
          Sample.rect Sample.font EmptyString None 6 12 0 false true)) = [] /\
  @IBitmapTextControl.ClearTextFromPlug Sample.toolkit
    (@Construct.IBitmapTextControl_ctor Fixture.control_h Fixture.plug
       Sample.rect Sample.font EmptyString None 6 12 0 false true) =
    (tt,
     @Construct.IBitmapTextControl_ctor Fixture.control_h Fixture.plug
       Sample.rect Sample.font EmptyString None 6 12 0 false true,
     []).
Proof.
  apply (proj1 (proj2 (proj2
           (@IBitmapTextControl_ctor_fresh Sample.toolkit Fixture.control_h
              Fixture.plug Sample.rect Sample.font EmptyString None 6 12 0 false true)))).
  reflexivity.
Defined.


(** The bases of [IKnobMultiControl], with more fuel than needed. *)
Lemma bases_are_the_ancestors_witness :
  Hierarchy.bases 7 Hierarchy.IKnobMultiControl =
    [Hierarchy.IKnobControl; Hierarchy.IControl].
Proof.
  rewrite (proj2 (proj2 (proj2 (bases_are_the_ancestors Hierarchy.IKnobMultiControl)))).
  - reflexivity.
  - lia.
Defined.


(** The rotating knob. *)
Lemma knobs_share_IKnobControl_handlers_witness :
  Members.resolve Hierarchy.IKnobRotaterControl Members.OnMouseDrag =
    Some Hierarchy.IKnobControl /\
  Members.resolve Hierarchy.IKnobRotaterControl Members.OnMouseWheel =
    Some Hierarchy.IKnobControl.
Proof.
  apply (proj2 (knobs_share_IKnobControl_handlers Hierarchy.IKnobRotaterControl)).
  right. apply Hierarchy.derives_direct. reflexivity.
Defined.

(** The overlay, a switch that overrides no handler. *)
Lemma switches_share_ISwitchControl_handlers_witness :
  Members.resolve Hierarchy.IBitmapOverlayControl Members.OnMouseDblClick =
    Some Hierarchy.ISwitchControl.
Proof.
  apply (proj1 (switches_share_ISwitchControl_handlers Hierarchy.IBitmapOverlayControl
                  (Hierarchy.derives_direct Hierarchy.IBitmapOverlayControl
                     Hierarchy.ISwitchControl eq_refl))).
Defined.

(** * The double a fader returns for its value headroom *)

Section DoubleArithmetic.
Local Open Scope Q_scope.

Lemma pow2_pos (e : Z) : 0 < 2 ^ e.
Proof. apply Qpower_0_lt. reflexivity. Qed.

Lemma pow2_add (a b : Z) : 2 ^ (a + b) == 2 ^ a * 2 ^ b.
Proof. apply Qpower_plus. discriminate. Qed.

Lemma pow2_succ (a : Z) : 2 ^ (a + 1) == 2 * 2 ^ a.
Proof. rewrite pow2_add. change (2 ^ 1) with 2. ring. Qed.

Lemma pow2_Z (e : Z) : (0 <= e)%Z -> inject_Z (2 ^ e) == 2 ^ e.
Proof. intros H. now rewrite Zpower_Qpower. Qed.

Lemma pow2_cancel (e : Z) : 2 ^ (- e) * 2 ^ e == 1.
Proof.
  rewrite <- pow2_add. replace (- e + e)%Z with 0%Z by lia. reflexivity.
Qed.

Lemma scaled_spec (num den e n d : Z) :
  (0 < den)%Z -> Double.scaled num den e = (n, d) ->
  (0 < d)%Z /\ inject_Z n * inject_Z den * 2 ^ e == inject_Z num * inject_Z d.
Proof.
  intros Hden. unfold Double.scaled.
  destruct (0 <=? e)%Z eqn:E; intros [= <- <-].
  - apply Z.leb_le in E. split.
    + apply Z.mul_pos_pos; [assumption|]. now apply Z.pow_pos_nonneg.
    + rewrite inject_Z_mult, pow2_Z by assumption. ring.
  - apply Z.leb_gt in E. split; [assumption|].
    rewrite inject_Z_mult, pow2_Z by lia.
    transitivity (inject_Z num * inject_Z den * (2 ^ (- e) * 2 ^ e)); [ring|].
    rewrite pow2_cancel. ring.
Qed.

Lemma scaled_pos (num den e n d : Z) :
  (0 < num)%Z -> Double.scaled num den e = (n, d) -> (0 < n)%Z.
Proof.
  intros Hn. unfold Double.scaled.
  destruct (0 <=? e)%Z eqn:E; intros [= <- <-]; [assumption|].
  apply Z.leb_gt in E. apply Z.mul_pos_pos; [assumption|].
  apply Z.pow_pos_nonneg; lia.
Qed.

Lemma log2_bounds (n : Z) :
  (0 < n)%Z -> 2 ^ Z.log2 n <= inject_Z n /\ inject_Z n < 2 * 2 ^ Z.log2 n.
Proof.
  intros H. destruct (Z.log2_spec n H) as [Lo Hi].
  pose proof (Z.log2_nonneg n) as NN.
  rewrite <- pow2_succ. rewrite <- !pow2_Z by lia.
  rewrite <- Zle_Qle, <- Zlt_Qlt. split; [exact Lo|].
  replace (Z.log2 n + 1)%Z with (Z.succ (Z.log2 n)) by lia. exact Hi.
Qed.

Lemma floor_log2_spec (num den : Z) :
  (0 < num)%Z -> (0 < den)%Z ->
  2 ^ Double.floor_log2 num den * inject_Z den <= inject_Z num /\
  inject_Z num < 2 * 2 ^ Double.floor_log2 num den * inject_Z den.
Proof.
  intros Hn Hd. unfold Double.floor_log2.
  destruct (log2_bounds num Hn) as [An Bn].
  destruct (log2_bounds den Hd) as [Ad Bd].
  set (a := Z.log2 num) in *. set (b := Z.log2 den) in *.
  assert (K : 2 ^ (a - b) * 2 ^ b == 2 ^ a).
  { rewrite <- pow2_add. now replace (a - b + b)%Z with a by lia. }
  pose proof (pow2_pos (a - b)) as Kp. pose proof (pow2_pos b) as Bp.
  destruct (Double.scaled num den (a - b)) as [n d] eqn:S.
  destruct (scaled_spec _ _ _ _ _ Hd S) as [Dp Sq].
  pose proof (scaled_pos _ _ _ _ _ Hn S) as Np.
  assert (Dq : 0 < inject_Z d) by (rewrite Zlt_Qlt in Dp; exact Dp).
  assert (Nq : 0 < inject_Z num) by (rewrite Zlt_Qlt in Hn; exact Hn).
  assert (Eq : 0 < inject_Z den) by (rewrite Zlt_Qlt in Hd; exact Hd).
  destruct (d <=? n)%Z eqn:T.
  - apply Z.leb_le in T. rewrite Zle_Qle in T.
    split.
    + (* K * den <= num : from d <= n *)
      apply (Qmult_le_r _ _ (inject_Z d)); [assumption|].
      rewrite <- Sq.
      setoid_replace (2 ^ (a - b) * inject_Z den * inject_Z d)
        with (inject_Z d * (inject_Z den * 2 ^ (a - b))) by ring.
      setoid_replace (inject_Z n * inject_Z den * 2 ^ (a - b))
        with (inject_Z n * (inject_Z den * 2 ^ (a - b))) by ring.
      apply Qmult_le_compat_r; [assumption|]. nra.
    + nra.
  - apply Z.leb_gt in T. rewrite Zlt_Qlt in T.
    assert (P : 2 ^ (a - b - 1 + 1) == 2 * 2 ^ (a - b - 1)) by apply pow2_succ.
    replace (a - b - 1 + 1)%Z with (a - b)%Z in P by lia.
    pose proof (pow2_pos (a - b - 1)) as Pp.
    split.
    + nra.
    + setoid_replace (2 * 2 ^ (a - b - 1) * inject_Z den)
        with (2 ^ (a - b) * inject_Z den) by (rewrite P; ring).
      apply (Qmult_lt_r _ _ (inject_Z d)); [assumption|].
      rewrite <- Sq.
      setoid_replace (2 ^ (a - b) * inject_Z den * inject_Z d)
        with (inject_Z d * (inject_Z den * 2 ^ (a - b))) by ring.
      setoid_replace (inject_Z n * inject_Z den * 2 ^ (a - b))
        with (inject_Z n * (inject_Z den * 2 ^ (a - b))) by ring.
      apply Qmult_lt_compat_r; [nra | assumption].
Qed.

Lemma nearest_even_spec (n d : Z) :
  (0 < d)%Z ->
  (- d <= 2 * (Double.nearest_even n d * d - n) <= d)%Z /\
  ((n mod d = 0)%Z -> (Double.nearest_even n d * d = n)%Z).
Proof.
  intros Hd. unfold Double.nearest_even.
  pose proof (Z.div_mod n d ltac:(lia)) as DM.
  pose proof (Z.mod_pos_bound n d Hd) as RB.
  set (q := (n / d)%Z) in *. set (r := (n mod d)%Z) in *.
  clearbody q r.
  destruct (Z.compare_spec (2 * r) d) as [C|C|C].
  - destruct (Z.even q); split; lia.
  - split; lia.
  - split; lia.
Qed.

Lemma floor_log2_range (num den lo hi : Z) :
  (0 < num)%Z -> (0 < den)%Z ->
  2 ^ lo * inject_Z den <= inject_Z num ->
  inject_Z num < 2 ^ hi * inject_Z den ->
  (lo <= Double.floor_log2 num den < hi)%Z.
Proof.
  intros Hn Hd Lo Hi.
  destruct (floor_log2_spec num den Hn Hd) as [A B].
  set (k := Double.floor_log2 num den) in *.
  assert (Dq : 0 < inject_Z den) by (rewrite Zlt_Qlt in Hd; exact Hd).
  split.
  - assert (lo < k + 1)%Z; [|lia].
    apply (Qpower_lt_compat_l_inv 2); [|reflexivity].
    rewrite pow2_succ.
    apply (Qmult_lt_r _ _ (inject_Z den)); [assumption|].
    eapply Qle_lt_trans; [exact Lo | exact B].
  - apply (Qpower_lt_compat_l_inv 2); [|reflexivity].
    apply (Qmult_lt_r _ _ (inject_Z den)); [assumption|].
    eapply Qle_lt_trans; [exact A | exact Hi].
Qed.

Lemma Qmult_cancel_pos_le (a b c : Q) : 0 < c -> a * c <= b * c -> a <= b.
Proof. intros Hc H. now apply (Qmult_le_r _ _ c). Qed.

Lemma Qmult_cancel_pos_lt (a b c : Q) : 0 < c -> a * c < b * c -> a < b.
Proof. intros Hc H. now apply (Qmult_lt_r _ _ c). Qed.

Lemma Qmult_cancel_pos_eq (a b c : Q) : 0 < c -> a * c == b * c -> a == b.
Proof.
  intros Hc H. apply Qle_antisym; apply (Qmult_cancel_pos_le _ _ c); trivial;
    rewrite H; apply Qle_refl.
Qed.

Lemma round_spec (neg : bool) (num den : Z) :
  (0 < num)%Z -> (0 < den)%Z ->
  (-1022 <= Double.floor_log2 num den <= 1022)%Z ->
  exists (p : positive) (e : Z),
    Double.round neg num den = S754_finite neg p e /\
    - inject_Z num <=
        2 ^ 53 * (inject_Z (Zpos p) * 2 ^ e * inject_Z den - inject_Z num) /\
    2 ^ 53 * (inject_Z (Zpos p) * 2 ^ e * inject_Z den - inject_Z num)
      <= inject_Z num /\
    (forall n d : Z,
       Double.scaled num den (Double.floor_log2 num den - 52) = (n, d) ->
       (n mod d = 0)%Z ->
       inject_Z (Zpos p) * 2 ^ e * inject_Z den == inject_Z num).
Proof.
  intros Hn Hd Hk. unfold Double.round.
  destruct (floor_log2_spec num den Hn Hd) as [FA FB].
  set (k := Double.floor_log2 num den) in *.
  rewrite Z.max_l by lia.
  set (e0 := (k - 52)%Z) in *.
  destruct (Double.scaled num den e0) as [n d] eqn:S.
  destruct (scaled_spec _ _ _ _ _ Hd S) as [Dp Sq].
  pose proof (scaled_pos _ _ _ _ _ Hn S) as Np.
  destruct (nearest_even_spec n d Dp) as [[NL NU] NX].
  set (m := Double.nearest_even n d) in *. clearbody m.
  assert (K : 2 ^ k == 2 ^ e0 * 2 ^ 52).
  { rewrite <- pow2_add. unfold e0. now replace (k - 52 + 52)%Z with k by lia. }
  pose proof (pow2_pos e0) as Ep.
  assert (T53 : 2 ^ 53 == 2 * 2 ^ 52) by reflexivity.
  assert (T52 : inject_Z (2 ^ 52) == 2 ^ 52) by reflexivity.
  assert (T52p : 0 < 2 ^ 52) by reflexivity.
  assert (Dq : 0 < inject_Z d) by (rewrite Zlt_Qlt in Dp; exact Dp).
  assert (NUMq : 0 < inject_Z num) by (rewrite Zlt_Qlt in Hn; exact Hn).
  assert (DENq : 0 < inject_Z den) by (rewrite Zlt_Qlt in Hd; exact Hd).
  assert (DE : 0 < inject_Z den * 2 ^ e0) by nra.
  (* the scaled quotient lies in [2^52, 2^53) *)
  assert (B1 : 2 ^ 52 * inject_Z d <= inject_Z n).
  { apply (Qmult_cancel_pos_le _ _ (inject_Z den * 2 ^ e0) DE).
    setoid_replace (inject_Z n * (inject_Z den * 2 ^ e0))
      with (inject_Z num * inject_Z d) by (rewrite <- Sq; ring).
    setoid_replace (2 ^ 52 * inject_Z d * (inject_Z den * 2 ^ e0))
      with (2 ^ k * inject_Z den * inject_Z d) by (rewrite K; ring).
    apply Qmult_le_compat_r; [exact FA | nra]. }
  assert (B2 : inject_Z n < 2 ^ 53 * inject_Z d).
  { apply (Qmult_cancel_pos_lt _ _ (inject_Z den * 2 ^ e0) DE).
    setoid_replace (inject_Z n * (inject_Z den * 2 ^ e0))
      with (inject_Z num * inject_Z d) by (rewrite <- Sq; ring).
    setoid_replace (2 ^ 53 * inject_Z d * (inject_Z den * 2 ^ e0))
      with (2 * 2 ^ k * inject_Z den * inject_Z d) by (rewrite K, T53; ring).
    apply Qmult_lt_compat_r; [exact Dq | exact FB]. }
  assert (B1z : (2 ^ 52 * d <= n)%Z).
  { rewrite Zle_Qle, inject_Z_mult. exact B1. }
  assert (B2z : (n < 2 ^ 53 * d)%Z).
  { rewrite Zlt_Qlt, inject_Z_mult. exact B2. }
  assert (Mlo : (2 ^ 52 <= m)%Z) by nia.
  assert (Mhi : (m <= 2 ^ 53)%Z) by nia.
  (* the two shapes of the result have the same magnitude *)
  assert (R : exists (p : positive) (e : Z),
             (let '(m0, e1) := if (m =? 2 ^ 53)%Z then ((2 ^ 52)%Z, (e0 + 1)%Z) else (m, e0) in
              match m0 with
              | Zpos p => if (e1 <=? 971)%Z then S754_finite neg p e1 else S754_infinity neg
              | _ => S754_zero neg
              end) = S754_finite neg p e /\
             inject_Z (Zpos p) * 2 ^ e == inject_Z m * 2 ^ e0).
  { destruct (m =? 2 ^ 53)%Z eqn:C.
    - apply Z.eqb_eq in C. subst m.
      exists (2 ^ 52)%positive, (e0 + 1)%Z. split.
      + change (2 ^ 52)%Z with (Zpos (2 ^ 52)).
        assert (Le : (e0 + 1 <=? 971)%Z = true) by (apply Z.leb_le; unfold e0; lia).
        now rewrite Le.
      + rewrite pow2_succ. change (inject_Z (Zpos (2 ^ 52))) with (inject_Z (2 ^ 52)).
        change (inject_Z (2 ^ 53)) with (2 * inject_Z (2 ^ 52)). ring.
    - destruct m as [|p|p]; try lia.
      exists p, e0. split; [|reflexivity].
      assert (Le : (e0 <=? 971)%Z = true) by (apply Z.leb_le; unfold e0; lia).
      now rewrite Le. }
  destruct R as (p & e & Rres & Rmag).
  exists p, e. split; [exact Rres|].
  assert (Key : (inject_Z (Zpos p) * 2 ^ e * inject_Z den - inject_Z num) * inject_Z d
                == (inject_Z m * inject_Z d - inject_Z n) * (inject_Z den * 2 ^ e0)).
  { rewrite Rmag.
    transitivity (inject_Z m * inject_Z d * (inject_Z den * 2 ^ e0)
                  - inject_Z num * inject_Z d); [ring|].
    rewrite <- Sq. ring. }
  assert (NLq : - inject_Z d <= 2 * (inject_Z m * inject_Z d - inject_Z n)).
  { rewrite <- inject_Z_mult. unfold Qminus. rewrite <- !inject_Z_opp, <- inject_Z_plus.
    change 2 with (inject_Z 2). rewrite <- inject_Z_mult, <- Zle_Qle. lia. }
  assert (NUq : 2 * (inject_Z m * inject_Z d - inject_Z n) <= inject_Z d).
  { rewrite <- inject_Z_mult. unfold Qminus. rewrite <- !inject_Z_opp, <- inject_Z_plus.
    change 2 with (inject_Z 2). rewrite <- inject_Z_mult, <- Zle_Qle. lia. }
  assert (Half : 2 ^ 52 * (inject_Z den * 2 ^ e0) <= inject_Z num).
  { setoid_replace (2 ^ 52 * (inject_Z den * 2 ^ e0)) with (2 ^ k * inject_Z den)
      by (rewrite K; ring). exact FA. }
  set (X := inject_Z (Zpos p) * 2 ^ e * inject_Z den - inject_Z num) in *.
  set (Y := inject_Z m * inject_Z d - inject_Z n) in *.
  set (G := inject_Z den * 2 ^ e0) in *.
  split; [|split].
  - apply (Qmult_cancel_pos_le _ _ (inject_Z d) Dq).
    setoid_replace (2 ^ 53 * X * inject_Z d) with (2 ^ 52 * (2 * Y) * G)
      by (transitivity (2 ^ 53 * (X * inject_Z d)); [ring | rewrite Key, T53; ring]).
    nra.
  - apply (Qmult_cancel_pos_le _ _ (inject_Z d) Dq).
    setoid_replace (2 ^ 53 * X * inject_Z d) with (2 ^ 52 * (2 * Y) * G)
      by (transitivity (2 ^ 53 * (X * inject_Z d)); [ring | rewrite Key, T53; ring]).
    nra.
  - intros n' d' [= <- <-] Hmod.
    specialize (NX Hmod).
    assert (Y0 : Y == 0).
    { unfold Y. rewrite <- inject_Z_mult, NX. ring. }
    assert (X0 : X == 0).
    { apply (Qmult_cancel_pos_eq _ _ (inject_Z d) Dq). rewrite Key, Y0. ring. }
    unfold X in X0. lra.
Qed.


Lemma of_int_spec (z : Z) :
  (z <> 0)%Z -> (Z.abs z < 2 ^ 53)%Z ->
  exists (p : positive) (e : Z),
    Double.of_int z = S754_finite (z <? 0)%Z p e /\
    inject_Z (Zpos p) * 2 ^ e == inject_Z (Z.abs z).
Proof.
  intros Hz Hb.
  assert (G : forall (neg : bool) (q : positive),
             (Zpos q < 2 ^ 53)%Z ->
             exists (p : positive) (e : Z),
               Double.round neg (Zpos q) 1 = S754_finite neg p e /\
               inject_Z (Zpos p) * 2 ^ e == inject_Z (Zpos q)).
  { intros neg q Hq.
    assert (Hk : (0 <= Double.floor_log2 (Zpos q) 1 < 53)%Z).
    { apply floor_log2_range; try lia.
      - change (2 ^ 0 * inject_Z 1) with (inject_Z 1). rewrite <- Zle_Qle. lia.
      - change (2 ^ 53 * inject_Z 1) with (inject_Z (2 ^ 53)). now rewrite <- Zlt_Qlt. }
    destruct (round_spec neg (Zpos q) 1) as (p & e & R & _ & _ & X); try lia.
    exists p, e. split; [exact R|].
    destruct (Double.scaled (Zpos q) 1 (Double.floor_log2 (Zpos q) 1 - 52)) as [n d] eqn:S.
    assert (D1 : (n mod d = 0)%Z).
    { unfold Double.scaled in S.
      destruct (0 <=? Double.floor_log2 (Zpos q) 1 - 52)%Z eqn:C.
      - apply Z.leb_le in C.
        replace (Double.floor_log2 (Zpos q) 1 - 52)%Z with 0%Z in S by lia.
        injection S as <- <-. apply Z.mod_1_r.
      - injection S as <- <-. apply Z.mod_1_r. }
    specialize (X n d eq_refl D1).
    rewrite <- X. change (inject_Z 1) with 1. ring. }
  destruct z as [|q|q]; [congruence| |].
  - apply (G false q). exact Hb.
  - apply (G true q). exact Hb.
Qed.

Lemma div_of_int (h l : Z) :
  (h <> 0)%Z -> (l <> 0)%Z -> is_int h -> is_int l ->
  exists (p : positive) (e : Z),
    Double.div (Double.of_int h) (Double.of_int l) =
      S754_finite (xorb (h <? 0)%Z (l <? 0)%Z) p e /\
    - inject_Z (Z.abs h) <=
        2 ^ 53 * (inject_Z (Zpos p) * 2 ^ e * inject_Z (Z.abs l) - inject_Z (Z.abs h)) /\
    2 ^ 53 * (inject_Z (Zpos p) * 2 ^ e * inject_Z (Z.abs l) - inject_Z (Z.abs h))
      <= inject_Z (Z.abs h).
Proof.
  unfold is_int. intros Hh Hl Ih Il.
  destruct (of_int_spec h Hh) as (ph & eh & Rh & Mh); [lia|].
  destruct (of_int_spec l Hl) as (pl & el & Rl & Ml); [lia|].
  rewrite Rh, Rl. unfold Double.div.
  destruct (Double.scaled (Zpos ph) (Zpos pl) (el - eh)) as [n d] eqn:S.
  destruct (scaled_spec _ _ _ _ _ (Pos2Z.is_pos pl) S) as [Dp Sq].
  pose proof (scaled_pos _ _ _ _ _ (Pos2Z.is_pos ph) S) as Np.
  assert (Dq : 0 < inject_Z d) by (rewrite Zlt_Qlt in Dp; exact Dp).
  assert (Nq : 0 < inject_Z n) by (rewrite Zlt_Qlt in Np; exact Np).
  set (H := inject_Z (Z.abs h)) in *. set (L := inject_Z (Z.abs l)) in *.
  assert (H1 : 1 <= H) by (unfold H; change 1 with (inject_Z 1); rewrite <- Zle_Qle; lia).
  assert (L1 : 1 <= L) by (unfold L; change 1 with (inject_Z 1); rewrite <- Zle_Qle; lia).
  assert (H31 : H <= 2 ^ 31)
    by (unfold H; change (2 ^ 31) with (inject_Z (2 ^ 31)); rewrite <- Zle_Qle; lia).
  assert (L31 : L <= 2 ^ 31)
    by (unfold L; change (2 ^ 31) with (inject_Z (2 ^ 31)); rewrite <- Zle_Qle; lia).
  (* n / d is |h| / |l| *)
  assert (Ratio : inject_Z n * L == H * inject_Z d).
  { rewrite <- Mh, <- Ml.
    transitivity (inject_Z n * inject_Z (Zpos pl) * (2 ^ (el - eh) * 2 ^ eh)).
    - rewrite <- pow2_add. replace (el - eh + eh)%Z with el by lia. ring.
    - transitivity (inject_Z n * inject_Z (Zpos pl) * 2 ^ (el - eh) * 2 ^ eh); [ring|].
      rewrite Sq. ring. }
  assert (Hk : (-31 <= Double.floor_log2 n d < 32)%Z).
  { apply floor_log2_range; try assumption.
    - assert (C : 2 ^ (-31) * 2 ^ 31 == 1) by reflexivity.
      pose proof (pow2_pos (-31)) as P.
      set (u := 2 ^ (-31)) in *. set (v := 2 ^ 31) in *.
      assert (S1 : inject_Z d <= inject_Z n * v) by nra.
      apply Qle_trans with (u * (inject_Z n * v)).
      + apply Qmult_le_l; assumption.
      + setoid_replace (u * (inject_Z n * v)) with (inject_Z n * (u * v)) by ring.
        rewrite C. rewrite Qmult_1_r. apply Qle_refl.
    - change (2 ^ 32) with (2 * 2 ^ 31). set (v := 2 ^ 31) in *.
      assert (S2 : inject_Z n <= v * inject_Z d) by nra.
      nra. }
  destruct (round_spec (xorb (h <? 0)%Z (l <? 0)%Z) n d Np Dp) as (p & e & R & Lo & Hi & _);
    [lia|].
  exists p, e. split; [exact R|].
  set (M := inject_Z (Zpos p) * 2 ^ e) in *.
  assert (Key : (M * L - H) * inject_Z d == (M * inject_Z d - inject_Z n) * L).
  { transitivity (M * L * inject_Z d - H * inject_Z d); [ring|]. rewrite <- Ratio. ring. }
  assert (T : 0 < 2 ^ 53) by reflexivity.
  set (t := 2 ^ 53) in *.
  split.
  - apply (Qmult_cancel_pos_le _ _ (inject_Z d) Dq).
    setoid_replace (t * (M * L - H) * inject_Z d)
      with (t * (M * inject_Z d - inject_Z n) * L)
      by (transitivity (t * ((M * L - H) * inject_Z d)); [ring | rewrite Key; ring]).
    setoid_replace (- H * inject_Z d) with (- inject_Z n * L)
      by (transitivity (- (H * inject_Z d)); [ring | rewrite <- Ratio; ring]).
    nra.
  - apply (Qmult_cancel_pos_le _ _ (inject_Z d) Dq).
    setoid_replace (t * (M * L - H) * inject_Z d)
      with (t * (M * inject_Z d - inject_Z n) * L)
      by (transitivity (t * ((M * L - H) * inject_Z d)); [ring | rewrite Key; ring]).
    rewrite <- Ratio. nra.
Qed.


Lemma sgn_xorb (a b : bool) : Double.sgn (xorb a b) == Double.sgn a * Double.sgn b.
Proof. destruct a, b; reflexivity. Qed.

Lemma Qabs_sgn (s : bool) (x : Q) : Qabs (Double.sgn s * x) == Qabs x.
Proof.
  rewrite Qabs_Qmult. destruct s; simpl; change (Qabs (-1)) with 1;
    change (Qabs 1) with 1; ring.
Qed.

Lemma inject_Z_sgn (z : Z) : inject_Z z == Double.sgn (z <? 0)%Z * inject_Z (Z.abs z).
Proof.
  destruct z as [|p|p]; simpl; unfold Double.sgn.
  - reflexivity.
  - ring.
  - change (inject_Z (Z.neg p)) with (- inject_Z (Z.pos p)). ring.
Qed.


Lemma headroom_rounded (h l : Z) :
  is_int h -> is_int l -> (l <> 0)%Z ->
  Double.is_finite (Double.div (Double.of_int h) (Double.of_int l)) = true /\
  Qabs (Double.value (Double.div (Double.of_int h) (Double.of_int l)) - inject_Z h / inject_Z l)
    <= 2 ^ (-53) * Qabs (inject_Z h / inject_Z l).
Proof.
  intros Ih Il Hl. 
  destruct (Z.eq_dec h 0) as [->|Hh].
  - destruct (of_int_spec l Hl) as (pl & el & Rl & _); [unfold is_int in Il; lia|].
    rewrite Rl. change (Double.of_int 0) with (S754_zero false).
    cbv beta iota delta [Double.div Double.value Double.is_finite].
    split; [reflexivity|].
    assert (Z0 : inject_Z 0 / inject_Z l == 0)
      by (unfold Qdiv; change (inject_Z 0) with 0; ring).
    rewrite Z0. discriminate.
  - destruct (div_of_int h l Hh Hl Ih Il) as (p & e & R & Lo & Hi).
    rewrite R. split; [reflexivity|].
    unfold Double.value. fold (Double.sgn (xorb (h <? 0)%Z (l <? 0)%Z)).
    set (M := inject_Z (Z.pos p) * 2 ^ e) in *.
    set (H := inject_Z (Z.abs h)) in *. set (L := inject_Z (Z.abs l)) in *.
    assert (Lp : 0 < L).
    { unfold L. change 0 with (inject_Z 0). rewrite <- Zlt_Qlt. lia. }
    assert (Hp : 0 < H).
    { unfold H. change 0 with (inject_Z 0). rewrite <- Zlt_Qlt. lia. }
    assert (LN : ~ L == 0) by (intros E; rewrite E in Lp; discriminate).
    assert (Q1 : inject_Z h / inject_Z l == Double.sgn (xorb (h <? 0)%Z (l <? 0)%Z) * (H / L)).
    { rewrite (inject_Z_sgn h), (inject_Z_sgn l), sgn_xorb. fold H L.
      destruct (l <? 0)%Z; unfold Double.sgn; field; exact LN. }
    rewrite Q1.
    setoid_replace (Double.sgn (xorb (h <? 0)%Z (l <? 0)%Z) * M
                    - Double.sgn (xorb (h <? 0)%Z (l <? 0)%Z) * (H / L))
      with (Double.sgn (xorb (h <? 0)%Z (l <? 0)%Z) * (M - H / L)) by ring.
    rewrite !Qabs_sgn.
    assert (Rp : 0 < H / L) by (apply Qlt_shift_div_l; [exact Lp | lra]).
    rewrite (Qabs_pos (H / L)) by lra.
    assert (RL : H / L * L == H) by (field; exact LN).
    set (r := H / L) in *.
    assert (T : 2 ^ (-53) * 2 ^ 53 == 1) by reflexivity.
    assert (Tp : 0 < 2 ^ 53) by reflexivity.
    assert (Up : 0 < 2 ^ (-53)) by reflexivity.
    set (t := 2 ^ 53) in *. set (u := 2 ^ (-53)) in *.
    assert (Lo' : - r <= t * (M - r)).
    { apply (Qmult_cancel_pos_le _ _ L Lp).
      setoid_replace (- r * L) with (- H) by (rewrite <- RL; ring).
      setoid_replace (t * (M - r) * L) with (t * (M * L - H)) by (rewrite <- RL; ring).
      exact Lo. }
    assert (Hi' : t * (M - r) <= r).
    { apply (Qmult_cancel_pos_le _ _ L Lp).
      setoid_replace (r * L) with H by exact RL.
      setoid_replace (t * (M - r) * L) with (t * (M * L - H)) by (rewrite <- RL; ring).
      exact Hi. }
    apply Qabs_Qle_condition. split.
    + apply (Qmult_cancel_pos_le _ _ t Tp).
      setoid_replace (- (u * r) * t) with (- r * (u * t)) by ring.
      rewrite T. lra.
    + apply (Qmult_cancel_pos_le _ _ t Tp).
      setoid_replace (u * r * t) with (r * (u * t)) by ring.
      rewrite T. lra.
Qed.

Lemma headroom_zero_length (h : Z) :
  is_int h ->
  Double.div (Double.of_int h) (Double.of_int 0) =
    if (h =? 0)%Z then S754_nan else S754_infinity (h <? 0)%Z.
Proof.
  intros Ih. 
  destruct (Z.eqb_spec h 0) as [->|Hh]; [reflexivity|].
  destruct (of_int_spec h Hh) as (p & e & R & _); [unfold is_int in Ih; lia|].
  rewrite R. simpl. now rewrite xorb_false_r.
Qed.

End DoubleArithmetic.

(** On the sample integers, dividing as [Double.div] does gives the
    double the Standard Library's specification of IEEE 754 gives. *)
Example Double_div_agrees_with_SFdiv :
  forallb
    (fun a =>
       forallb
         (fun b =>
            Double.eqb (Double.div (Double.of_int a) (Double.of_int b))
                       (Double.reference_div_int a b))
         Fixture.ints)
    Fixture.ints = true.
Proof. vm_compute. reflexivity. Qed.

(** The same on the sample doubles, every one divided by every one:
    special values, ties, results that overflow and results below the
    normal range. *)
Example Double_div_agrees_with_SFdiv_on_doubles :
  forallb
    (fun x =>
       forallb
         (fun y => Double.eqb (Double.div x y) (SFdiv 53 1024 x y))
         Fixture.doubles)
    Fixture.doubles = true.
Proof. vm_compute. reflexivity. Qed.

(** C10 fails as stated: for a headroom of 1 on a length of 3 the double
    returned is [6004799503160661 * 2^-54], which is not the ratio: three
    times it is not 1. *)
Lemma GetHandleValueHeadroom_not_the_ratio :
  IFaderControl_double.GetHandleValueHeadroom (Sample.fader 3 1) =
    S754_finite false 6004799503160661 (-54) /\
  ~ (Double.value (IFaderControl_double.GetHandleValueHeadroom (Sample.fader 3 1))
       * inject_Z 3 == inject_Z 1)%Q.
Proof.
  split; [vm_compute; reflexivity|].
  intros E. vm_compute in E. discriminate E.
Qed.

(** C10, as the code has it: [GetHandleValueHeadroom] divides without
    looking at [mLen].  With [mLen] zero it returns NaN when the headroom
    is zero too and otherwise the infinity of the headroom's sign.  With
    [mLen] not zero it returns a finite double, the ratio of the handle
    headroom to the length rounded to a double: it is off the ratio by at
    most [2^-53] of the ratio's size. *)
Theorem GetHandleValueHeadroom_rounds_ratio (f : IFaderControl.t) :
  is_int (IFaderControl.mHandleHeadroom f) ->
  is_int (IFaderControl.mLen f) ->
  (IFaderControl.mLen f = 0 ->
     IFaderControl.GetHandleValueHeadroom f = None /\
     IFaderControl_double.GetHandleValueHeadroom f =
       if IFaderControl.mHandleHeadroom f =? 0
       then S754_nan
       else S754_infinity (IFaderControl.mHandleHeadroom f <? 0)) /\
  (IFaderControl.mLen f <> 0 ->
     exists q : Q,
       IFaderControl.GetHandleValueHeadroom f = Some q /\
       (q * inject_Z (IFaderControl.mLen f)
          == inject_Z (IFaderControl.mHandleHeadroom f))%Q /\
       Double.is_finite (IFaderControl_double.GetHandleValueHeadroom f) = true /\
       (Qabs (Double.value (IFaderControl_double.GetHandleValueHeadroom f) - q)
          <= 2 ^ (-53) * Qabs q)%Q).
Proof.
  intros Ih Il. unfold IFaderControl_double.GetHandleValueHeadroom.
  split.
  - intros E. split.
    + apply (proj1 (GetHandleValueHeadroom_ratio f) E).
    + rewrite E. now apply headroom_zero_length.
  - intros E.
    destruct (headroom_rounded _ _ Ih Il E) as [F A].
    exists (inject_Z (IFaderControl.mHandleHeadroom f)
            / inject_Z (IFaderControl.mLen f))%Q.
    assert (NZ : ~ (inject_Z (IFaderControl.mLen f) == 0)%Q)
      by (rewrite inject_Z_zero; exact E).
    split; [now apply ddiv_defined|].
    split; [rewrite Qmult_comm; now apply Qmult_div_r|].
    split; [exact F | exact A].
Qed.

(** A fader of length 100 whose handle takes 20 of it, and one of length
    0. *)
Lemma GetHandleValueHeadroom_rounds_ratio_witness :
  IFaderControl_double.GetHandleValueHeadroom (Sample.fader 0 20) =
    S754_infinity false /\
  exists q : Q,
    IFaderControl.GetHandleValueHeadroom (Sample.fader 100 20) = Some q /\
    (q * inject_Z 100 == inject_Z 20)%Q /\
    Double.is_finite (IFaderControl_double.GetHandleValueHeadroom (Sample.fader 100 20))
      = true /\
    (Qabs (Double.value (IFaderControl_double.GetHandleValueHeadroom (Sample.fader 100 20))
           - q) <= 2 ^ (-53) * Qabs q)%Q.
Proof.
  split.
  - apply (proj1 (GetHandleValueHeadroom_rounds_ratio (Sample.fader 0 20)
                    ltac:(unfold is_int; simpl; lia) ltac:(unfold is_int; simpl; lia))).
    reflexivity.
  - apply (proj2 (GetHandleValueHeadroom_rounds_ratio (Sample.fader 100 20)
                    ltac:(unfold is_int; simpl; lia) ltac:(unfold is_int; simpl; lia))).
    simpl. lia.
Defined.
